(** * ParaSwap DEX library: local SDK and Curve V1 route merger

    A shallow embedding of
    [src/implementations/local-paraswap-sdk.ts] (price sampling, quote
    selection, transaction assembly) and of the Curve V1 factory route
    optimiser [curveV1Merge], followed by the properties the specification
    states about them and by further properties of the code: of the merger,
    of price sampling and quote selection, of the transaction assembly and
    of the constructor.

    Conventions of the embedding:
    - a JavaScript [bigint] is a [Z]; bigint division truncates ([Z.quot]);
    - a JavaScript string is a [string] of bytes; case folding is modelled on
      the ASCII letters, which covers hexadecimal token addresses and venue
      keys;
    - a JavaScript [number] that holds a gas cost is an IEEE-754 binary64
      value ([spec_float] with [prec = 53], [emax = 1024]); a [number] that
      holds a unix-time deadline is integer valued and is a [Z];
    - a thrown exception is a failed result: [None] in the merger, whose only
      failures are [TypeError]s, and [Throw e] in the SDK methods;
    - [lastExchange], a reference to an object that already sits in the output
      array, is the index of that object in the array. *)

From Stdlib Require Import ZArith QArith Qround Qabs String Ascii.
From Stdlib Require Import SpecFloat DecimalString.
From stdpp Require Import base option list strings.

(** ** JavaScript primitives *)

Module JS.

Local Open Scope Z_scope.

(** *** Strings *)

(** [String.prototype.toLowerCase], on the ASCII letters. *)
Definition lowerAscii (c : ascii) : ascii :=
  let n := nat_of_ascii c in
  if ((65 <=? n) && (n <=? 90))%nat then ascii_of_nat (n + 32) else c.

Fixpoint toLowerCase (s : string) : string :=
  match s with
  | EmptyString => EmptyString
  | String c s' => String (lowerAscii c) (toLowerCase s')
  end.

(** [Array.prototype.includes] on an array of strings. *)
Definition includes (l : list string) (x : string) : bool :=
  existsb (String.eqb x) l.

(** [BigInt.prototype.toString]: the decimal digits, with a leading minus
    sign for a negative value. *)
Definition bigintToString (z : Z) : string :=
  NilZero.string_of_int (Z.to_int z).

(** *** Binary64 numbers *)

Definition number : Type := spec_float.

Definition prec : Z := 53.
Definition emax : Z := 1024.

Definition NaN : number := S754_nan.

(** The binary64 value nearest to the integer [z] (ties to even). *)
Definition ofInteger (z : Z) : number := binary_normalize prec emax z 0 false.

(** The binary64 value nearest to the rational [p / q] (ties to even).  The
    quotient is computed with at least 64 significant bits; the remainder
    gives the position of the exact value between two consecutive
    candidates. *)
Definition ofQuotient (neg : bool) (p q : positive) : number :=
  let k := Z.max 0 (64 + Zdigits2 (Zpos q) - Zdigits2 (Zpos p)) in
  let num := Zpos p * 2 ^ k in
  let m := num / Zpos q in
  let r := num mod Zpos q in
  let loc := if r =? 0 then loc_Exact else loc_Inexact (2 * r ?= Zpos q) in
  binary_round_aux prec emax neg m (- k) loc.

(** The binary64 value nearest to [m * 10 ^ e]. *)
Definition ofDecimal (neg : bool) (m e : Z) : number :=
  match m with
  | Zpos p =>
      match e with
      | Zneg e' => ofQuotient neg p (10 ^ e')%positive
      | _ => binary_normalize prec emax (if neg then - (m * 10 ^ e) else m * 10 ^ e) 0 false
      end
  | _ => S754_zero neg
  end.

(** The [+] of two numbers. *)
Definition add (x y : number) : number := SFadd prec emax x y.

(** The exact value of a finite number. *)
Definition toQ (x : number) : Q :=
  match x with
  | S754_finite s m e =>
      let v := match e with
               | Zneg e' => Qmake (Zpos m) (2 ^ e')%positive
               | _ => inject_Z (Zpos m * 2 ^ e)
               end in
      if s then Qopp v else v
  | _ => 0%Q
  end.

(** *** [parseFloat] *)

Definition isWhiteSpace (c : ascii) : bool :=
  let n := nat_of_ascii c in
  ((n =? 9) || (n =? 10) || (n =? 11) || (n =? 12) || (n =? 13) || (n =? 32))%nat.

Definition isDigit (c : ascii) : bool :=
  let n := nat_of_ascii c in ((48 <=? n) && (n <=? 57))%nat.

Definition digitValue (c : ascii) : Z := Z.of_nat (nat_of_ascii c) - 48.

(** The white space and line terminators of one byte. *)
Fixpoint trimStart (s : string) : string :=
  match s with
  | String c s' => if isWhiteSpace c then trimStart s' else s
  | EmptyString => s
  end.

(** [takeDigits acc n s] reads the longest run of decimal digits at the head
    of [s]; it returns their value appended to [acc], how many there were
    (added to [n]), and the rest of [s]. *)
Fixpoint takeDigits (acc : Z) (n : Z) (s : string) : Z * Z * string :=
  match s with
  | String c s' =>
      if isDigit c then takeDigits (10 * acc + digitValue c) (n + 1) s'
      else (acc, n, s)
  | EmptyString => (acc, n, s)
  end.

(** [ExponentPart]: an [e] or [E], an optional sign and at least one digit.
    When the text after the mantissa is not of this form the literal ends
    before it and the exponent is 0. *)
Definition takeExponent (s : string) : Z :=
  match s with
  | String c s' =>
      if (Ascii.eqb c "e" || Ascii.eqb c "E")%bool then
        let '(neg, s'') :=
          match s' with
          | String "-" t => (true, t)
          | String "+" t => (false, t)
          | _ => (false, s')
          end in
        let '(v, n, _) := takeDigits 0 0 s'' in
        if n =? 0 then 0 else if neg then - v else v
      else 0
  | EmptyString => 0
  end.

(** The longest prefix that is a [StrDecimalLiteral]. *)
Variant literal :=
  | LitInfinity (neg : bool)
  | LitDecimal (neg : bool) (m e : Z).

Definition takeLiteral (s : string) : option literal :=
  let '(neg, s1) :=
    match s with
    | String "-" t => (true, t)
    | String "+" t => (false, t)
    | _ => (false, s)
    end in
  if String.prefix "Infinity" s1 then Some (LitInfinity neg)
  else
    let '(ip, ni, s2) := takeDigits 0 0 s1 in
    match s2 with
    | String "." s3 =>
        let '(m, nf, s4) := takeDigits ip 0 s3 in
        if (ni =? 0) && (nf =? 0) then None
        else Some (LitDecimal neg m (takeExponent s4 - nf))
    | _ =>
        if ni =? 0 then None
        else Some (LitDecimal neg ip (takeExponent s2))
    end.

Definition parseFloat (s : string) : number :=
  match takeLiteral (trimStart s) with
  | Some (LitInfinity neg) => S754_infinity neg
  | Some (LitDecimal neg m e) => ofDecimal neg m e
  | None => NaN
  end.

(** *** [Number.prototype.toString] and [Number.prototype.toFixed] *)

Definition decimalLength (v : Z) : Z :=
  Z.of_nat (String.length (bigintToString v)).

(** The digits [s] and the decimal exponent [n] of the shortest decimal
    [s * 10 ^ (n - k)], [k] the number of digits of [s], that reads back as
    the number [x] whose exact value is the integer [v]; of two candidates
    with [k] digits the one nearer to [v].  Candidates are tried from
    [k] digits on; 17 digits always suffice. *)
Fixpoint shortestDigits (fuel : nat) (k : Z) (v n : Z) (x : number) : Z * Z :=
  match fuel with
  | O => (v, n)
  | S fuel' =>
      let scale := 10 ^ (n - k) in
      let lo := v / scale in
      let hi := lo + 1 in
      let okLo := SFeqb (ofInteger (lo * scale)) x in
      let okHi := SFeqb (ofInteger (hi * scale)) x in
      let pick (s : Z) := if s =? 10 ^ k then (10 ^ (k - 1), n + 1) else (s, n) in
      let dLo := v - lo * scale in
      let dHi := hi * scale - v in
      if okLo && okHi then
        if (dLo <? dHi) || ((dLo =? dHi) && Z.even lo) then pick lo else pick hi
      else if okLo then pick lo
      else if okHi then pick hi
      else shortestDigits fuel' (k + 1) v n x
  end.

(** [Number::toString] of a finite number of magnitude at least [10 ^ 21],
    given by its exact integer value [v]: exponential notation with the
    shortest digits that read back as the number. *)
Definition exponentialToString (v : Z) : string :=
  let '(s, n) := shortestDigits 17 1 v (decimalLength v) (ofInteger v) in
  let e := bigintToString (n - 1) in
  match bigintToString s with
  | String d EmptyString => String d ("e+" +:+ e)
  | String d ds => String d ("." +:+ ds +:+ "e+" +:+ e)
  | EmptyString => EmptyString
  end.

(** The digits of [n] with a decimal point before the last six, padded with
    zeros on the left so that at least one digit precedes the point. *)
Definition fixed6Digits (n : Z) : string :=
  let m := bigintToString n in
  let k := String.length m in
  let m := if (k <=? 6)%nat then String.concat "" (replicate (7 - k) "0") +:+ m else m in
  let k := String.length m in
  String.substring 0 (k - 6) m +:+ "." +:+ String.substring (k - 6) 6 m.

(** The integer [n] for which [n / 10 ^ 6] is nearest to the non-negative
    rational [v]; of two such integers the larger one. *)
Definition nearestMicro (v : Q) : Z :=
  Qfloor (v * inject_Z (10 ^ 6) + (1 # 2)).

(** [x.toFixed(6)]. *)
Definition toFixed6 (x : number) : string :=
  match x with
  | S754_nan => "NaN"
  | S754_infinity s => if s then "-Infinity" else "Infinity"
  | S754_zero _ => "0.000000"
  | S754_finite s m e =>
      let v := toQ (S754_finite false m e) in
      let sign := if s then "-" else "" in
      if Qle_bool (inject_Z (10 ^ 21)) v then sign +:+ exponentialToString (Qfloor v)
      else sign +:+ fixed6Digits (nearestMicro v)
  end.

(** *** [Number] applied to a [bigint] *)

(** The nearest binary64 value, for an integer: exact up to 53 significant
    bits, beyond that the low bits are rounded away (ties to even).  Only
    finite results are represented: a bigint of magnitude [2 ^ 1024] or more,
    which JavaScript maps to an infinity, is outside the modelled range. *)
Definition bigintToNumber (z : Z) : Z :=
  let a := Z.abs z in
  let sh := Z.log2 a - 52 in
  if sh <=? 0 then z
  else
    let q := Z.shiftr a sh in
    let r := Z.land a (Z.ones sh) in
    let half := 2 ^ (sh - 1) in
    let q' := if (half <? r) || ((r =? half) && Z.odd q) then q + 1 else q in
    Z.sgn z * Z.shiftl q' sh.

End JS.

(** ** Data model *)

Definition Address : Type := string.

Variant SwapSide := SELL | BUY.

(** [ParaSwapVersion] of [@paraswap/core]; the code names [V5] and [V6]. *)
Variant ParaSwapVersion := V5 | V6.

#[global] Instance SwapSide_eq_dec : EqDecision SwapSide.
Proof. solve_decision. Defined.

#[global] Instance ParaSwapVersion_eq_dec : EqDecision ParaSwapVersion.
Proof. solve_decision. Defined.

Record Token := { address : Address; decimals : Z }.

(** One leg of the [data.path] of a path-based venue.  Only [tokenIn] and
    [tokenOut] are read; [rest] stands for the other, venue-specific fields
    of the leg. *)
Module Leg.
Record t := mk { tokenIn : Address; tokenOut : Address; rest : string }.
End Leg.

(** The [data] payload of a swap exchange.  The merger reads [path] and
    [gasUSD]; [rest] stands for everything else.  A payload without a [path]
    is one whose [path] is empty: reading the first or the last leg of either
    gives [undefined].  A payload without [gasUSD] is one whose [gasUSD] is
    the text [undefined], which is what [parseFloat] converts it to. *)
Module Data.
Record t := mk { path : list Leg.t; gasUSD : string; rest : string }.
End Data.

(** [poolAddresses?: string[]]: [None] is an absent array, and an element
    [None] is an [undefined] entry, which [push(xs[0])] stores when [xs] is
    empty. *)
Module SwapExchange.
Record t := mk {
  exchange : string;
  srcAmount : string;
  destAmount : string;
  percent : Z;
  data : Data.t;
  poolAddresses : option (list (option Address))
}.
End SwapExchange.

Module Swap.
Record t := mk {
  srcToken : Address;
  srcDecimals : Z;
  destToken : Address;
  destDecimals : Z;
  swapExchanges : list SwapExchange.t
}.
End Swap.

Module Route.
Record t := mk { percent : Z; swaps : list Swap.t }.
End Route.

Module Rate.
Record t := mk {
  blockNumber : Z;
  network : Z;
  srcToken : Address;
  srcDecimals : Z;
  srcAmount : string;
  destToken : Address;
  destDecimals : Z;
  destAmount : string;
  bestRoute : list Route.t;
  gasCostUSD : string;
  gasCost : string;
  others : list string;
  version : ParaSwapVersion;
  side : SwapSide;
  tokenTransferProxy : Address;
  contractAddress : Address
}.

(** [or.bestRoute = routes]. *)
Definition set_bestRoute (routes : list Route.t) (or : t) : t :=
  mk (blockNumber or) (network or) (srcToken or) (srcDecimals or)
     (srcAmount or) (destToken or) (destDecimals or) (destAmount or)
     routes (gasCostUSD or) (gasCost or) (others or) (version or)
     (side or) (tokenTransferProxy or) (contractAddress or).
End Rate.

(** ** The route merger, [curveV1Merge] *)

(** The keys of the two configuration tables the merger is built from,
    [CurveV1FactoryConfig] and [CurveV1StableNgConfig], in the order of
    [Object.keys]. *)
Class CurveConfig := {
  CurveV1FactoryConfig : list string;
  CurveV1StableNgConfig : list string
}.

(** [rawRate.forEach(f)], for a callback [f] that updates the variables it
    closes over and may throw. *)
Fixpoint forEach {S A : Type} (f : S → A → option S) (st : S) (l : list A)
  : option S :=
  match l with
  | [] => Some st
  | x :: l' => st' ← f st x; forEach f st' l'
  end.

(** The two variables of [fixRoute].  [lastExchange] is [false] ([None]) or
    a reference to an element of [optimizedRate] ([Some] of its index). *)
Record MergeState := {
  optimizedRate : list Swap.t;
  lastExchange : option nat
}.

Section CurveV1Merge.
Context {curve : CurveConfig}.

Definition CurveV1FactoryForks : list string :=
  map JS.toLowerCase (CurveV1FactoryConfig ++ CurveV1StableNgConfig).

(** The hop [lastExchange] after the hop whose only exchange is [se],
    with [firstLeg] the first leg of its path, has been fused into it:
    the six assignments of the second branch. *)
Definition fuse (lastExchange : Swap.t) (le0 : SwapExchange.t)
    (pools : list (option Address)) (s : Swap.t) (se : SwapExchange.t)
    (firstLeg : Leg.t) (spools : list (option Address)) : Swap.t :=
  let d := SwapExchange.data le0 in
  let d' :=
    Data.mk (Data.path d ++ [firstLeg])
      (JS.toFixed6
         (JS.add (JS.parseFloat (Data.gasUSD d))
                 (JS.parseFloat (Data.gasUSD (SwapExchange.data se)))))
      (Data.rest d) in
  let le0' :=
    SwapExchange.mk (SwapExchange.exchange le0) (SwapExchange.srcAmount le0)
      (SwapExchange.destAmount se) (SwapExchange.percent le0) d'
      (Some (pools ++ [mjoin (spools !! 0%nat)])) in
  Swap.mk (Swap.srcToken lastExchange) (Swap.srcDecimals lastExchange)
    (Swap.destToken s) (Swap.destDecimals s)
    (le0' :: tail (Swap.swapExchanges lastExchange)).

(** The body of the [forEach] callback of [fixRoute].  [_.cloneDeep s] is
    [s]: the copy matters only in that later assignments to the copy leave
    the input untouched, which value passing gives for free. *)
Definition fixRoute_step (st : MergeState) (s : Swap.t) : option MergeState :=
  let push := optimizedRate st ++ [s] in
  match Swap.swapExchanges s with
  | [se] =>
      if negb (JS.includes CurveV1FactoryForks
                 (JS.toLowerCase (SwapExchange.exchange se)))
      then Some {| optimizedRate := push; lastExchange := None |}
      else
        match lastExchange st with
        | Some ref =>
            le ← optimizedRate st !! ref;
            le0 ← head (Swap.swapExchanges le);
            lastLeg ← last (Data.path (SwapExchange.data le0));
            firstLeg ← head (Data.path (SwapExchange.data se));
            if String.eqb (JS.toLowerCase (Leg.tokenOut lastLeg))
                          (JS.toLowerCase (Leg.tokenIn firstLeg))
            then
              pools ← SwapExchange.poolAddresses le0;
              spools ← SwapExchange.poolAddresses se;
              Some {| optimizedRate :=
                        <[ref := fuse le le0 pools s se firstLeg spools]>
                          (optimizedRate st);
                      lastExchange := Some ref |}
            else
              Some {| optimizedRate := push;
                      lastExchange := Some (length (optimizedRate st)) |}
        | None =>
            Some {| optimizedRate := push;
                    lastExchange := Some (length (optimizedRate st)) |}
        end
  | _ => Some {| optimizedRate := push; lastExchange := None |}
  end.

Definition fixRoute (rawRate : list Swap.t) : option (list Swap.t) :=
  optimizedRate <$>
    forEach fixRoute_step {| optimizedRate := []; lastExchange := None |} rawRate.

(** [r => ({ ...r, swaps: fixRoute(r.swaps) })]. *)
Definition fixRouteOf (r : Route.t) : option Route.t :=
  swaps ← fixRoute (Route.swaps r);
  Some (Route.mk (Route.percent r) swaps).

Definition curveV1Merge (or : Rate.t) : option Rate.t :=
  if decide (Rate.version or ≠ V6) then Some or
  else
    routes ← mapM fixRouteOf (Rate.bestRoute or);
    Some (Rate.set_bestRoute routes or).

End CurveV1Merge.

(** ** The SDK, [LocalParaswapSDK] *)

(** A thrown value.  The SDK itself throws [Error]s, reading a property of
    [undefined] throws a [TypeError], and the rejection of a collaborator is
    an [Error] with the collaborator's message. *)
Variant exn :=
  | TypeError
  | Error (message : string).

Inductive result (A : Type) :=
  | Ok (a : A)
  | Throw (e : exn).
Arguments Ok {A} a.
Arguments Throw {A} e.

Definition chunks : Z := 10.

(** [_.range(start, end)] for [start <= end]. *)
Definition range (start end_ : Z) : list Z := seqZ start (end_ - start).

(** One quote of the pricing layer ([PoolPrices]).  Its [gasCost] is only
    written to the console and is left out, as is the console. *)
Module PoolPrices.
Record t := mk {
  prices : list Z;
  unit : Z;
  data : Data.t;
  poolIdentifier : option string;
  exchange : string;
  poolAddresses : option (list (option Address))
}.
End PoolPrices.

(** [{ [key: string]: string[] | null }]. *)
Definition PoolIdentifiers : Type := list (string * option (list string)).

(** The rate that [getPrices] returns: the optimised rate and the five
    fields spread over it. *)
Module OptimalRate.
Record t := mk {
  rate : Rate.t;
  hmac : string;
  srcUSD : string;
  destUSD : string;
  contractMethod : string;
  partnerFee : Z
}.

Definition set_bestRoute (routes : list Route.t) (r : t) : t :=
  mk (Rate.set_bestRoute routes (rate r)) (hmac r) (srcUSD r) (destUSD r)
     (contractMethod r) (partnerFee r).
End OptimalRate.

(** [new BigNumber(numerator).div(denominator)], left unevaluated: the SDK
    only hands it on. *)
Record SlippageFactor := { numerator : string; denominator : string }.

Record PreprocessTransactionOptions := {
  slippageFactor : SlippageFactor;
  txOrigin : Address;
  executionContractAddress : Address;
  isDirectMethod : bool;
  optVersion : ParaSwapVersion;
  recipient : Address
}.

(** Modelled from the spec: [ExchangeTxInfo], declared in [../types], is the
    auxiliary info of preprocessing, "that may include a proposed deadline";
    the code converts it with [Number], so it is a bigint when present. *)
Record ExchangeTxInfo := { txDeadline : option Z }.

(** Modelled from the spec: the venue handle [IDex], declared in [../dex],
    with the two optional capabilities the assembler looks for.
    [getTokenFromAddress(address) -> Token | absent];
    [preProcessTransaction(exchange, srcTokenObj, destTokenObj, side,
    options) -> (rewrittenExchange, auxInfo)], which may fail. *)
Record IDex := {
  preProcessTransaction :
    option (SwapExchange.t → option Token → option Token → SwapSide →
            PreprocessTransactionOptions →
            result (SwapExchange.t * ExchangeTxInfo));
  getTokenFromAddress : option (Address → option Token)
}.

(** The argument of [transactionBuilder.build]. *)
Module BuildParams.
Record t := mk {
  priceRoute : OptimalRate.t;
  minMaxAmount : string;
  userAddress : Address;
  partnerAddress : Address;
  partnerFeePercent : string;
  deadline : string;
  uuid : string
}.
End BuildParams.

Definition NULL_ADDRESS : Address := "0x0000000000000000000000000000000000000000".

(** The fields of the SDK object and the collaborators it calls, none of
    which is under [src/].  Collaborators are functions of their arguments.
    Preprocessing and the transaction builder may fail and return a
    [result]; the pricing layer and the two venue lookups are total, as the
    specification has them. *)
Class SDK := {
  TransferFeeParams : Type;
  TxBuilderDex : Type;
  TxObject : Type;
  network : Z;
  dexKeys : list string;
  tokenTransferProxyAddress : Address;
  augustusAddress : Address;
  DirectContractMethods : list string;
  getBlockNumber : Z;
  getPoolIdentifiers :
    Token → Token → SwapSide → Z → list string → PoolIdentifiers;
  getPoolPrices :
    Token → Token → list Z → SwapSide → Z → list string → PoolIdentifiers →
    option TransferFeeParams → option (list PoolPrices.t);
  optimizeRate : Rate.t → Rate.t;
  getDexByKey : string → option IDex;
  getTxBuilderDexByKey : string → TxBuilderDex;
  getDexCallsParams :
    OptimalRate.t → nat → Swap.t → nat → SwapExchange.t → string →
    TxBuilderDex → Address → Address;
  build : BuildParams.t → result TxObject
}.

(** The deadline of [buildTransaction] is a variable that the callbacks of
    all exchanges read and assign.  A computation takes its current value
    and returns a value and the new deadline, or throws. *)
Definition Assembly (A : Type) : Type := Z → result (A * Z).

Definition ret {A : Type} (a : A) : Assembly A := λ d, Ok (a, d).

Definition bind {A B : Type} (m : Assembly A) (f : A → Assembly B) : Assembly B :=
  λ d, match m d with
       | Ok (a, d') => f a d'
       | Throw e => Throw e
       end.

Definition throw {A : Type} (e : exn) : Assembly A := λ _, Throw e.

(** [await] of a collaborator's promise. *)
Definition await {A : Type} (r : result A) : Assembly A :=
  λ d, match r with
       | Ok a => Ok (a, d)
       | Throw e => Throw e
       end.

Definition getDeadline : Assembly Z := λ d, Ok (d, d).
Definition setDeadline (d' : Z) : Assembly unit := λ _, Ok (tt, d').

Declare Scope assembly_scope.
Delimit Scope assembly_scope with assembly.
Notation "x ←' m ; k" := (bind m (λ x, k))
  (at level 20, m at level 100, k at level 200, only parsing) : assembly_scope.
Notation "' pat ←' m ; k" := (bind m (λ x, match x with pat => k end))
  (at level 20, pat pattern, m at level 100, k at level 200, only parsing)
  : assembly_scope.

(** [await Promise.all(xs.map(async (x, i) => f(i, x)))].  Every callback
    runs up to its first [await] when [map] calls it, in the order of the
    array, and the results keep the positions of their inputs.  The parts
    after the [await]s run in the order in which the collaborators answer;
    here they run in the order of the array, and of several failures the
    first in that order is reported. *)
Fixpoint mapAll {A B : Type} (f : nat → A → Assembly B) (i : nat) (xs : list A)
  : Assembly (list B) :=
  match xs with
  | [] => ret []
  | x :: xs' =>
      (y ←' f i x; ys ←' mapAll f (S i) xs'; ret (y :: ys))%assembly
  end.

(** [txInfo.deadline && Number(txInfo.deadline) < deadline
     ? Number(txInfo.deadline) : deadline].  The bigint [0n] is falsy. *)
Definition reconcile (deadline : Z) (txInfo : ExchangeTxInfo) : Z :=
  match txDeadline txInfo with
  | Some d =>
      if negb (d =? 0)%Z && (JS.bigintToNumber d <? deadline)%Z
      then JS.bigintToNumber d
      else deadline
  | None => deadline
  end.

(** [Number.prototype.toString] of an integer-valued number. *)
Definition integerToString (z : Z) : string :=
  if (Z.abs z <? 10 ^ 21)%Z then JS.bigintToString z
  else (if (z <? 0)%Z then "-" else "") +:+ JS.exponentialToString (Z.abs z).

Definition ConfigurationError : exn :=
  Error "If you want to test preProcessTransaction, first need to implement getTokenFromAddress function".

Definition NoLiquidityError (dexKeys : list string) : exn :=
  Error ("Fail to get price for " +:+ String.concat ", " dexKeys).

Section LocalParaswapSDK.
Context {this : SDK}.
Local Open Scope Z_scope.

(** The sample amounts of [getPrices]. *)
Definition amounts (amount : Z) : list Z :=
  map (λ i, (amount * i) `quot` chunks) (range 0 (chunks + 1)).

(** The rate [getPrices] builds from the first quote and hands to
    [optimizeRate]. *)
Definition unoptimizedRate (from to : Token) (side : SwapSide)
    (blockNumber : Z) (finalPrice : PoolPrices.t)
    (srcAmount destAmount : string) : Rate.t :=
  Rate.mk blockNumber network
    (address from) (decimals from) srcAmount
    (address to) (decimals to) destAmount
    [ Route.mk 100
        [ Swap.mk (address from) (decimals from) (address to) (decimals to)
            [ SwapExchange.mk (PoolPrices.exchange finalPrice)
                srcAmount destAmount 100
                (PoolPrices.data finalPrice)
                (PoolPrices.poolAddresses finalPrice) ] ] ]
    "0" "0" [] V5 side tokenTransferProxyAddress augustusAddress.

(** [forceRoute], the last parameter of the method, is not used by it and
    is left out. *)
Definition getPrices (from to : Token) (amount : Z) (side : SwapSide)
    (contractMethod : string) (_poolIdentifiers : option PoolIdentifiers)
    (transferFees : option TransferFeeParams) : result OptimalRate.t :=
  let blockNumber := getBlockNumber in
  let poolIdentifiers :=
    match _poolIdentifiers with
    | Some ids => ids
    | None => getPoolIdentifiers from to side blockNumber dexKeys
    end in
  let poolPrices :=
    getPoolPrices from to (amounts amount) side blockNumber dexKeys
      poolIdentifiers transferFees in
  match poolPrices with
  | None | Some [] => Throw (NoLiquidityError dexKeys)
  | Some (finalPrice :: _) =>
      match PoolPrices.prices finalPrice !! Z.to_nat chunks with
      | None => Throw TypeError
      | Some quoteAmount =>
          let srcAmount :=
            JS.bigintToString (if decide (side = SELL) then amount else quoteAmount) in
          let destAmount :=
            JS.bigintToString (if decide (side = SELL) then quoteAmount else amount) in
          let optimizedRate :=
            optimizeRate
              (unoptimizedRate from to side blockNumber finalPrice
                 srcAmount destAmount) in
          Ok (OptimalRate.mk optimizedRate "0" "0" "0" contractMethod 0)
      end
  end.

(** The callback that [buildTransaction] runs on every swap exchange. *)
Definition preprocessExchange (priceRoute : OptimalRate.t)
    (minMaxAmount : Z) (userAddress : Address) (slippage : SlippageFactor)
    (routeIndex : nat) (swap : Swap.t) (swapIndex : nat)
    (se : SwapExchange.t) : Assembly SwapExchange.t :=
  let dexLibExchange := getDexByKey (SwapExchange.exchange se) in
  let dex := getTxBuilderDexByKey (SwapExchange.exchange se) in
  match dexLibExchange with
  | Some {| preProcessTransaction := Some preProcess;
            getTokenFromAddress := lookup |} =>
      match lookup with
      | None => throw ConfigurationError
      | Some tokenFromAddress =>
          let recipient :=
            getDexCallsParams priceRoute routeIndex swap swapIndex se
              (JS.bigintToString minMaxAmount) dex "" in
          ('(preprocessedRoute, txInfo) ←'
             await
               (preProcess se
                  (tokenFromAddress (Swap.srcToken swap))
                  (tokenFromAddress (Swap.destToken swap))
                  (Rate.side (OptimalRate.rate priceRoute))
                  {| slippageFactor := slippage;
                     txOrigin := userAddress;
                     executionContractAddress := "";
                     isDirectMethod :=
                       JS.includes DirectContractMethods
                         (OptimalRate.contractMethod priceRoute);
                     optVersion := Rate.version (OptimalRate.rate priceRoute);
                     recipient := recipient |});
           deadline ←' getDeadline;
           _ ←' setDeadline (reconcile deadline txInfo);
           ret preprocessedRoute)%assembly
      end
  | _ => ret se
  end.

(** The deadline [buildTransaction] starts from, ten minutes after the
    clock reading [now] (milliseconds, as [Date.now()] gives it; for a
    reading in the range of [Date] the division and the floor are exact). *)
Definition initialDeadline (now : Z) : Z := now / 1000 + 10 * 60.

(** The argument that [buildTransaction] passes to the transaction
    builder, for a clock reading [now] and a fresh identifier [uuid]. *)
Definition buildParams (now : Z) (uuid : string)
    (priceRoute : OptimalRate.t) (minMaxAmount : Z) (userAddress : Address)
    : result BuildParams.t :=
  let deadline := initialDeadline now in
  let rate := OptimalRate.rate priceRoute in
  let slippage :=
    {| numerator := JS.bigintToString minMaxAmount;
       denominator :=
         if decide (Rate.side rate = SELL) then Rate.destAmount rate
         else Rate.srcAmount rate |} in
  let assembly :=
    mapAll (λ routeIndex route,
      (swaps ←'
         mapAll (λ swapIndex swap,
           (swapExchanges ←'
              mapAll (λ _ se,
                preprocessExchange priceRoute minMaxAmount userAddress
                  slippage routeIndex swap swapIndex se)
                0%nat (Swap.swapExchanges swap);
            ret (Swap.mk (Swap.srcToken swap) (Swap.srcDecimals swap)
                   (Swap.destToken swap) (Swap.destDecimals swap)
                   swapExchanges))%assembly)
           0%nat (Route.swaps route);
       ret (Route.mk (Route.percent route) swaps))%assembly)
      0%nat (Rate.bestRoute rate) in
  match assembly deadline with
  | Throw e => Throw e
  | Ok (bestRoute, deadline) =>
      Ok (BuildParams.mk (OptimalRate.set_bestRoute bestRoute priceRoute)
            (JS.bigintToString minMaxAmount) userAddress NULL_ADDRESS "0"
            (integerToString deadline) uuid)
  end.

Definition buildTransaction (now : Z) (uuid : string)
    (priceRoute : OptimalRate.t) (minMaxAmount : Z) (userAddress : Address)
    : result TxObject :=
  match buildParams now uuid priceRoute minMaxAmount userAddress with
  | Ok params => build params
  | Throw e => Throw e
  end.

End LocalParaswapSDK.

(** ** The constructor of the SDK *)

(** The adapter service that the constructor asks for the venue of a key,
    which is not under [src/]: [getDexByKey] throws for a key that the
    network does not support, and [instanceOfLimitOrderExchange] is the
    test [dex instanceof LimitOrderExchange]. *)
Class DexAdapterService := {
  Dex : Type;
  LimitOrderProvider : Type;
  DexAdapterService_getDexByKey : string → result Dex;
  instanceOfLimitOrderExchange : Dex → bool
}.

(** [xs.indexOf(x)] on an array of strings with holes: the first index that
    holds [x], [None] for -1. *)
Definition indexOf (xs : list (option string)) (x : string) : option nat :=
  fst <$> list_find (λ e, e = Some x) xs.

(** [delete xs[i]], which leaves a hole and keeps the length; for the index
    -1 it removes nothing. *)
Definition deleteAt (i : option nat) (xs : list (option string))
    : list (option string) :=
  match i with
  | Some i => <[i := None]> xs
  | None => xs
  end.

Section Constructor.
Context {service : DexAdapterService}.

(** One call of the callback of [this.dexKeys.map], at index [k].  The
    state is the array [this.dexKeys], an element [None] being a hole, and
    the assignments [dex.limitOrderProvider = limitOrderProvider] made so
    far, each with the key of its venue.  [map] does not call the callback
    on a hole. *)
Definition constructor_step (limitOrderProvider : option LimitOrderProvider)
    (st : list (option string) * list (string * LimitOrderProvider)) (k : nat)
    : list (option string) * list (string * LimitOrderProvider) :=
  let '(dexKeys, provided) := st in
  match dexKeys !! k with
  | Some (Some dexKey) =>
      match DexAdapterService_getDexByKey dexKey with
      | Ok dex =>
          match limitOrderProvider with
          | Some provider =>
              if instanceOfLimitOrderExchange dex
              then (dexKeys, provided ++ [(dexKey, provider)])
              else st
          | None => st
          end
      | Throw _ => (deleteAt (indexOf dexKeys dexKey) dexKeys, provided)
      end
  | _ => st
  end.

(** The part of the constructor that sets [this.dexKeys]: the argument is a
    key or an array of keys. *)
Definition constructor (dexKeys : string + list string)
    (limitOrderProvider : option LimitOrderProvider)
    : list (option string) * list (string * LimitOrderProvider) :=
  let keys := match dexKeys with inl key => [key] | inr keys => keys end in
  fold_left (constructor_step limitOrderProvider)
    (seq 0 (length keys)) (Some <$> keys, []).

(** The key is one that the adapter service supports. *)
Definition supported (dexKey : string) : bool :=
  match DexAdapterService_getDexByKey dexKey with
  | Ok _ => true
  | Throw _ => false
  end.

(** What the constructor leaves at the place of a key: the key, or a hole
    when the adapter service does not support it. *)
Definition keptKey (dexKey : string) : option string :=
  if supported dexKey then Some dexKey else None.

(** The assignment of the limit order provider that the constructor makes
    for a key, if it makes one. *)
Definition providedFor (limitOrderProvider : option LimitOrderProvider)
    (dexKey : string) : option (string * LimitOrderProvider) :=
  provider ← limitOrderProvider;
  match DexAdapterService_getDexByKey dexKey with
  | Ok dex =>
      if instanceOfLimitOrderExchange dex then Some (dexKey, provider) else None
  | Throw _ => None
  end.

End Constructor.

(** ** Vocabulary of the properties *)

Section MergeVocabulary.
Context {curve : CurveConfig}.

(** The hop can take part in a merge: it has exactly one swap exchange and
    the venue of that exchange is one of the Curve V1 factory forks. *)
Definition mergeable (s : Swap.t) : bool :=
  match Swap.swapExchanges s with
  | [se] =>
      JS.includes CurveV1FactoryForks
        (JS.toLowerCase (SwapExchange.exchange se))
  | _ => false
  end.

(** The comparison of the second branch, for the pending hop [a] and the
    next hop [b]: whether the output token of the last leg of [a] is the
    input token of the first leg of [b].  [None] when a path is empty and
    the comparison throws. *)
Definition boundary (a b : Swap.t) : option bool :=
  a0 ← head (Swap.swapExchanges a);
  b0 ← head (Swap.swapExchanges b);
  lastLeg ← last (Data.path (SwapExchange.data a0));
  firstLeg ← head (Data.path (SwapExchange.data b0));
  Some (String.eqb (JS.toLowerCase (Leg.tokenOut lastLeg))
                   (JS.toLowerCase (Leg.tokenIn firstLeg))).

(** No two neighbours of the sequence can be merged: wherever two
    mergeable hops are adjacent, the comparison runs and finds their
    boundary tokens different. *)
Definition settled (hops : list Swap.t) : Prop :=
  ∀ i a b,
    hops !! i = Some a → hops !! S i = Some b →
    mergeable a = true → mergeable b = true →
    boundary a b = Some false.

(** The reference that [lastExchange] holds once the hops of a settled
    sequence have been emitted. *)
Definition pendingOf (hops : list Swap.t) : option nat :=
  match last hops with
  | Some a => if mergeable a then Some (length hops - 1) else None
  | None => None
  end.

Definition merge_inv (st : MergeState) : Prop :=
  settled (optimizedRate st) ∧ lastExchange st = pendingOf (optimizedRate st).

(** A hop whose path has a leg and whose pool addresses are present, if it
    has one swap exchange. *)
Definition wellFormed (s : Swap.t) : Prop :=
  ∀ se, Swap.swapExchanges s = [se] →
        Data.path (SwapExchange.data se) ≠ [] ∧
        is_Some (SwapExchange.poolAddresses se).

(** [lastExchange], when it is set, refers to a hop of the output whose
    first swap exchange has a path with a leg and pool addresses. *)
Definition pendingWellFormed (st : MergeState) : Prop :=
  ∀ ref, lastExchange st = Some ref →
    ∃ le le0 rest,
      optimizedRate st !! ref = Some le ∧
      Swap.swapExchanges le = le0 :: rest ∧
      Data.path (SwapExchange.data le0) ≠ [] ∧
      is_Some (SwapExchange.poolAddresses le0).

End MergeVocabulary.

Section AssemblyVocabulary.
Context {this : SDK}.

(** The slippage factor [buildTransaction] computes. *)
Definition slippageOf (priceRoute : OptimalRate.t) (minMaxAmount : Z)
    : SlippageFactor :=
  let rate := OptimalRate.rate priceRoute in
  {| numerator := JS.bigintToString minMaxAmount;
     denominator :=
       if decide (Rate.side rate = SELL) then Rate.destAmount rate
       else Rate.srcAmount rate |}.

(** What the venue of the swap exchange [se] answers to the preprocessing
    request that [buildTransaction] sends it.  [None] when no request is
    sent: the venue is unknown, or it does not preprocess, or it cannot
    look tokens up. *)
Definition venueAnswer (priceRoute : OptimalRate.t) (minMaxAmount : Z)
    (userAddress : Address) (routeIndex : nat) (swap : Swap.t)
    (swapIndex : nat) (se : SwapExchange.t)
    : option (result (SwapExchange.t * ExchangeTxInfo)) :=
  dex ← getDexByKey (SwapExchange.exchange se);
  preProcess ← preProcessTransaction dex;
  tokenFromAddress ← getTokenFromAddress dex;
  Some (preProcess se
          (tokenFromAddress (Swap.srcToken swap))
          (tokenFromAddress (Swap.destToken swap))
          (Rate.side (OptimalRate.rate priceRoute))
          {| slippageFactor := slippageOf priceRoute minMaxAmount;
             txOrigin := userAddress;
             executionContractAddress := "";
             isDirectMethod :=
               JS.includes DirectContractMethods
                 (OptimalRate.contractMethod priceRoute);
             optVersion := Rate.version (OptimalRate.rate priceRoute);
             recipient :=
               getDexCallsParams priceRoute routeIndex swap swapIndex se
                 (JS.bigintToString minMaxAmount)
                 (getTxBuilderDexByKey (SwapExchange.exchange se)) "" |}).

(** The deadline that counts in the reconciliation, as a number: the one
    a venue proposes when it answers, proposes one, and the one it
    proposes is not [0n]. *)
Definition countedDeadline (answer : option (result (SwapExchange.t * ExchangeTxInfo)))
    : option Z :=
  match answer with
  | Some (Ok (_, {| txDeadline := Some d |})) =>
      if (d =? 0)%Z then None else Some (JS.bigintToNumber d)
  | _ => None
  end.

(** The counted deadlines of all swap exchanges of a rate, in the order
    route, swap, exchange. *)
Definition countedDeadlines (priceRoute : OptimalRate.t) (minMaxAmount : Z)
    (userAddress : Address) : list Z :=
  mjoin (imap (λ routeIndex route,
    mjoin (imap (λ swapIndex swap,
      omap (λ se,
        countedDeadline
          (venueAnswer priceRoute minMaxAmount userAddress
             routeIndex swap swapIndex se))
        (Swap.swapExchanges swap))
      (Route.swaps route)))
    (Rate.bestRoute (OptimalRate.rate priceRoute))).

(** The three callbacks of [buildTransaction], from the innermost: on a
    swap exchange, on a swap, on a route. *)
Definition onExchange (priceRoute : OptimalRate.t) (minMaxAmount : Z)
    (userAddress : Address) (routeIndex : nat) (swap : Swap.t)
    (swapIndex : nat) (_ : nat) (se : SwapExchange.t)
    : Assembly SwapExchange.t :=
  preprocessExchange priceRoute minMaxAmount userAddress
    (slippageOf priceRoute minMaxAmount) routeIndex swap swapIndex se.

Definition onSwap (priceRoute : OptimalRate.t) (minMaxAmount : Z)
    (userAddress : Address) (routeIndex : nat) (swapIndex : nat)
    (swap : Swap.t) : Assembly Swap.t :=
  bind (mapAll (onExchange priceRoute minMaxAmount userAddress
                  routeIndex swap swapIndex)
          0%nat (Swap.swapExchanges swap))
    (λ swapExchanges,
       ret (Swap.mk (Swap.srcToken swap) (Swap.srcDecimals swap)
              (Swap.destToken swap) (Swap.destDecimals swap) swapExchanges)).

Definition onRoute (priceRoute : OptimalRate.t) (minMaxAmount : Z)
    (userAddress : Address) (routeIndex : nat) (route : Route.t)
    : Assembly Route.t :=
  bind (mapAll (onSwap priceRoute minMaxAmount userAddress routeIndex)
          0%nat (Route.swaps route))
    (λ swaps, ret (Route.mk (Route.percent route) swaps)).

(** No preprocessing request fails. *)
Definition preprocessingSucceeds : Prop :=
  ∀ key dex preProcess se src dest side options e,
    getDexByKey key = Some dex →
    preProcessTransaction dex = Some preProcess →
    preProcess se src dest side options ≠ Throw e.

End AssemblyVocabulary.

(** The gas cost that the specification describes for a merged hop: the two
    decimal texts read exactly, added exactly, and the sum rounded to six
    fractional digits (of two nearest values the larger in magnitude).
    [None] when a text is not a decimal literal. *)
Definition decimalValue (s : string) : option Q :=
  match JS.takeLiteral (JS.trimStart s) with
  | Some (JS.LitDecimal neg m e) =>
      Some ((if neg then - inject_Z m else inject_Z m) * Qpower (inject_Z 10) e)%Q
  | _ => None
  end.

Definition decimalSum6 (a b : string) : option string :=
  x ← decimalValue a;
  y ← decimalValue b;
  let v := (x + y)%Q in
  Some ((if Qle_bool 0 v then "" else "-") +:+
        JS.fixed6Digits (JS.nearestMicro (Qabs v))).

(** ** Further vocabulary of the route merger *)

(** Where a hop starts and where it ends: the token, its decimals, and the
    amount of the first swap exchange of the hop. *)
Definition hopSource (s : Swap.t) : Address * Z * option string :=
  (Swap.srcToken s, Swap.srcDecimals s,
   SwapExchange.srcAmount <$> head (Swap.swapExchanges s)).

Definition hopDestination (s : Swap.t) : Address * Z * option string :=
  (Swap.destToken s, Swap.destDecimals s,
   SwapExchange.destAmount <$> head (Swap.swapExchanges s)).

(** Sequential composition: every hop starts at the token at which the hop
    before it ends. *)
Fixpoint chained (hops : list Swap.t) : Prop :=
  match hops with
  | a :: (b :: _) as rest => Swap.destToken a = Swap.srcToken b ∧ chained rest
  | _ => True
  end.

(** The first leg of the path of the first swap exchange of a hop, and the
    first pool address of that swap exchange ([undefined] when it has
    none): what the merger takes from a hop that it absorbs. *)
Definition firstLeg (s : Swap.t) : option Leg.t :=
  se ← head (Swap.swapExchanges s); head (Data.path (SwapExchange.data se)).

Definition firstPool (s : Swap.t) : option Address :=
  se ← head (Swap.swapExchanges s);
  pools ← SwapExchange.poolAddresses se;
  mjoin (pools !! 0%nat).

(** The gas cost of a pending hop after it has absorbed the hops [hs], of
    which it takes the gas costs one after the other. *)
Definition absorbedGas (gasUSD : string) (hs : list Swap.t) : string :=
  fold_left
    (λ gas h,
       match head (Swap.swapExchanges h) with
       | Some se =>
           JS.toFixed6
             (JS.add (JS.parseFloat gas)
                     (JS.parseFloat (Data.gasUSD (SwapExchange.data se))))
       | None => gas
       end)
    hs gasUSD.

Section RunVocabulary.
Context {curve : CurveConfig}.

(** The hops [hs] are absorbed one after the other by a pending hop whose
    path ends with a leg to [tokenOut]: each can take part in a merge, has a
    path and pool addresses, and the first leg of its path starts, up to
    case, at the token at which the first leg of the hop before it ends. *)
Fixpoint absorbable (tokenOut : Address) (hs : list Swap.t) : Prop :=
  match hs with
  | [] => True
  | h :: hs' =>
      mergeable h = true ∧
      ∃ se leg,
        head (Swap.swapExchanges h) = Some se ∧
        head (Data.path (SwapExchange.data se)) = Some leg ∧
        is_Some (SwapExchange.poolAddresses se) ∧
        JS.toLowerCase tokenOut = JS.toLowerCase (Leg.tokenIn leg) ∧
        absorbable (Leg.tokenOut leg) hs'
  end.

End RunVocabulary.

(** ** Further vocabulary of the transaction assembly *)

(** The auxiliary info of an answer to a preprocessing request. *)
Definition answeredInfo
    (answer : option (result (SwapExchange.t * ExchangeTxInfo)))
    : option ExchangeTxInfo :=
  match answer with
  | Some (Ok (_, txInfo)) => Some txInfo
  | _ => None
  end.

Section AnswerVocabulary.
Context {this : SDK}.

(** The auxiliary infos of all answers to the preprocessing requests of a
    rate, in the order route, swap, exchange. *)
Definition answeredInfos (priceRoute : OptimalRate.t) (minMaxAmount : Z)
    (userAddress : Address) : list ExchangeTxInfo :=
  mjoin (imap (λ routeIndex route,
    mjoin (imap (λ swapIndex swap,
      omap (λ se,
        answeredInfo
          (venueAnswer priceRoute minMaxAmount userAddress
             routeIndex swap swapIndex se))
        (Swap.swapExchanges swap))
      (Route.swaps route)))
    (Rate.bestRoute (OptimalRate.rate priceRoute))).

End AnswerVocabulary.

(** ** Sample data *)

Module Sample.

Definition config : CurveConfig :=
  {| CurveV1FactoryConfig := ["CurveV1Factory"];
     CurveV1StableNgConfig := ["CurveV1StableNg"] |}.

Definition DAI : Address := "0x6B175474E89094C44Da98b954EedeAC495271d0F".
Definition USDC : Address := "0xA0b86991c6218b36c1d19D4a2e9Eb0cE3606eB48".
Definition USDT : Address := "0xdAC17F958D2ee523a2206206994597C13D831ec7".
Definition WETH : Address := "0xC02aaA39b223FE8D0A0e5C4F27eAD9083C756Cc2".
Definition pool1 : Address := "0xbEbc44782C7dB0a1A60Cb6fe97d0b483032FF1C7".
Definition pool2 : Address := "0xD51a44d3FaE010294C616388b506AcdA1bfAAE46".
Definition pool3 : Address := "0x4e0915C88bC70750D68C481540F081fEFaF22273".

Definition leg (tokenIn tokenOut : Address) : Leg.t :=
  Leg.mk tokenIn tokenOut "".

Definition exchangeOn (exchange srcAmount destAmount : string)
    (path : list Leg.t) (gasUSD : string) (pools : list Address)
    : SwapExchange.t :=
  SwapExchange.mk exchange srcAmount destAmount 100
    (Data.mk path gasUSD "") (Some (Some <$> pools)).

(** A hop with one swap exchange. *)
Definition hop (src dest : Address) (se : SwapExchange.t) : Swap.t :=
  Swap.mk src 18 dest 6 [se].

Definition rateOf (version : ParaSwapVersion) (hops : list Swap.t) : Rate.t :=
  Rate.mk 19000000 1 DAI 18 "1000" WETH 18 "3" [Route.mk 100 hops]
    "0" "0" [] version SELL "0x216B4B4Ba9F3e719726886d34a177484278Bfcae"
    "0x6A000F20005980200259B80c5102003040001068".

(** DAI to USDC, then USDC to USDT, both on Curve V1 factory forks; the
    second hop names its input token in lower case. *)
Definition seDaiUsdc : SwapExchange.t :=
  exchangeOn "CurveV1Factory" "1000" "999" [leg DAI USDC] "0.1" [pool1].
Definition hopDaiUsdc : Swap.t := hop DAI USDC seDaiUsdc.

Definition seUsdcUsdt : SwapExchange.t :=
  exchangeOn "curvev1stableng" "999" "998"
    [leg (JS.toLowerCase USDC) USDT] "0.2" [pool2].
Definition hopUsdcUsdt : Swap.t := hop USDC USDT seUsdcUsdt.

(** What the merger makes of the two. *)
Definition hopDaiUsdt : Swap.t :=
  hop DAI USDT
    (exchangeOn "CurveV1Factory" "1000" "998"
       [leg DAI USDC; leg (JS.toLowerCase USDC) USDT] "0.300000"
       [pool1; pool2]).

(** USDC to WETH through USDT: one hop whose path has two legs and which
    touches two pools. *)
Definition seUsdcWeth : SwapExchange.t :=
  exchangeOn "CurveV1Factory" "999" "3"
    [leg USDC USDT; leg USDT WETH] "0" [pool2; pool3].
Definition hopUsdcWeth : Swap.t := hop USDC WETH seUsdcWeth.

(** DAI to USDC with a gas cost just below one and a half millionths of a
    dollar. *)
Definition seDaiUsdcCheap : SwapExchange.t :=
  exchangeOn "CurveV1Factory" "1000" "999"
    [leg DAI USDC] "0.00000149999999999999999999" [pool1].
Definition hopDaiUsdcCheap : Swap.t := hop DAI USDC seDaiUsdcCheap.

(** What the merger makes of [hopDaiUsdcCheap] and [hopUsdcWeth]. *)
Definition seDaiWeth : SwapExchange.t :=
  exchangeOn "CurveV1Factory" "1000" "3"
    [leg DAI USDC; leg USDC USDT] "0.000002" [pool1; pool2].
Definition hopDaiWeth : Swap.t := hop DAI WETH seDaiWeth.

(** USDT to WETH on a fork of the family, and what the merger makes of the
    three hops from DAI to WETH. *)
Definition seUsdtWeth : SwapExchange.t :=
  exchangeOn "CurveV1StableNg" "998" "3" [leg USDT WETH] "0.05" [pool3].
Definition hopUsdtWeth : Swap.t := hop USDT WETH seUsdtWeth.

Definition hopDaiUsdtWeth : Swap.t :=
  hop DAI WETH
    (exchangeOn "CurveV1Factory" "1000" "3"
       [leg DAI USDC; leg (JS.toLowerCase USDC) USDT; leg USDT WETH]
       "0.350000" [pool1; pool2; pool3]).

(** A hop on a venue outside the family. *)
Definition hopUniswap : Swap.t :=
  hop USDT WETH (exchangeOn "UniswapV3" "998" "3" [] "0.5" [pool3]).

(** An SDK with four venues: one that preprocesses and proposes a
    deadline five minutes after the clock reading of the samples, one that
    preprocesses and proposes the deadline [0n], one that preprocesses
    but cannot look tokens up, and one that does not preprocess. *)
Definition tokenOf (a : Address) : option Token :=
  Some {| address := a; decimals := 18 |}.

Definition proposing (d : option Z) : IDex :=
  {| preProcessTransaction :=
       Some (λ se _ _ _ _, Ok (se, {| txDeadline := d |}));
     getTokenFromAddress := Some tokenOf |}.

Definition registry (key : string) : option IDex :=
  if String.eqb key "Hashflow" then Some (proposing (Some 1700000300%Z))
  else if String.eqb key "SwaapV2" then Some (proposing (Some 0%Z))
  else if String.eqb key "Dexalot" then
    Some {| preProcessTransaction := preProcessTransaction (proposing None);
            getTokenFromAddress := None |}
  else if String.eqb key "UniswapV3" then
    Some {| preProcessTransaction := None; getTokenFromAddress := None |}
  else None.

(** The quote of the samples: a linear price curve, three units for a
    thousand. *)
Definition quote : PoolPrices.t :=
  PoolPrices.mk [0; 0; 0; 0; 1; 1; 1; 2; 2; 2; 3]%Z 1000 (Data.mk [] "0.5" "")
    None "UniswapV3" (Some [Some pool3]).

Definition sdk : SDK :=
  {| TransferFeeParams := unit;
     TxBuilderDex := string;
     TxObject := BuildParams.t;
     network := 1;
     dexKeys := ["UniswapV3"];
     tokenTransferProxyAddress := "0x216B4B4Ba9F3e719726886d34a177484278Bfcae";
     augustusAddress := "0x6A000F20005980200259B80c5102003040001068";
     DirectContractMethods := ["swapExactAmountInOnUniswapV3"];
     getBlockNumber := 19000000;
     getPoolIdentifiers := λ _ _ _ _ _, [];
     getPoolPrices := λ _ _ _ _ _ _ _ _, Some [quote];
     optimizeRate := λ r, r;
     getDexByKey := registry;
     getTxBuilderDexByKey := λ key, key;
     getDexCallsParams := λ _ _ _ _ _ _ _ _, NULL_ADDRESS;
     build := λ params, Ok params |}.

Definition clock : Z := 1700000000000.

(** A rate of one hop from USDT to WETH, split over the given venues. *)
Definition seOn (exchange : string) : SwapExchange.t :=
  exchangeOn exchange "998" "3" [] "0.5" [pool3].

Definition hopOver (exchanges : list string) : Swap.t :=
  Swap.mk USDT 6 WETH 18 (seOn <$> exchanges).

Definition routeOver (exchanges : list string) : OptimalRate.t :=
  OptimalRate.mk (rateOf V6 [hopOver exchanges])
    "0" "0" "0" "swapExactAmountIn" 0.

Definition user : Address := "0x05182E579FDfCf69E4390c3411D8FeA1fb6467cf".

End Sample.

(** ** Further sample data *)

Module MoreSamples.

(** An SDK whose venue [Paused] rejects every preprocessing request, beside
    the venues of [Sample.registry]. *)
Definition registryWithFailure (key : string) : option IDex :=
  if String.eqb key "Paused" then
    Some {| preProcessTransaction :=
              Some (λ _ _ _ _ _, Throw (Error "pool is paused"));
            getTokenFromAddress := Some Sample.tokenOf |}
  else Sample.registry key.

Definition sdkWithFailure : SDK :=
  {| TransferFeeParams := unit;
     TxBuilderDex := string;
     TxObject := BuildParams.t;
     network := 1;
     dexKeys := ["UniswapV3"; "Paused"];
     tokenTransferProxyAddress := "0x216B4B4Ba9F3e719726886d34a177484278Bfcae";
     augustusAddress := "0x6A000F20005980200259B80c5102003040001068";
     DirectContractMethods := ["swapExactAmountInOnUniswapV3"];
     getBlockNumber := 19000000;
     getPoolIdentifiers := λ _ _ _ _ _, [];
     getPoolPrices := λ _ _ _ _ _ _ _ _, None;
     optimizeRate := λ r, r;
     getDexByKey := registryWithFailure;
     getTxBuilderDexByKey := λ key, key;
     getDexCallsParams := λ _ _ _ _ _ _ _ _, NULL_ADDRESS;
     build := λ params, Ok params |}.

(** An SDK whose venues preprocess only when they can look tokens up, and
    whose first quote has too few prices. *)
Definition registrySound (key : string) : option IDex :=
  if String.eqb key "Hashflow" then Some (Sample.proposing (Some 1700000300%Z))
  else if String.eqb key "UniswapV3" then
    Some {| preProcessTransaction := None; getTokenFromAddress := None |}
  else None.

Definition shortQuote : PoolPrices.t :=
  PoolPrices.mk [0; 1; 2]%Z 1000 (Data.mk [] "0.5" "") None "UniswapV3" None.

Definition sdkSound : SDK :=
  {| TransferFeeParams := unit;
     TxBuilderDex := string;
     TxObject := BuildParams.t;
     network := 1;
     dexKeys := ["UniswapV3"; "Hashflow"];
     tokenTransferProxyAddress := "0x216B4B4Ba9F3e719726886d34a177484278Bfcae";
     augustusAddress := "0x6A000F20005980200259B80c5102003040001068";
     DirectContractMethods := ["swapExactAmountInOnUniswapV3"];
     getBlockNumber := 19000000;
     getPoolIdentifiers := λ _ _ _ _ _, [];
     getPoolPrices := λ _ _ _ _ _ _ _ _, Some [shortQuote];
     optimizeRate := λ r, r;
     getDexByKey := registrySound;
     getTxBuilderDexByKey := λ key, key;
     getDexCallsParams := λ _ _ _ _ _ _ _ _, NULL_ADDRESS;
     build := λ params, Ok params |}.

(** An SDK none of whose venues preprocesses. *)
Definition sdkPlain : SDK :=
  {| TransferFeeParams := unit;
     TxBuilderDex := string;
     TxObject := BuildParams.t;
     network := 1;
     dexKeys := ["UniswapV3"];
     tokenTransferProxyAddress := "0x216B4B4Ba9F3e719726886d34a177484278Bfcae";
     augustusAddress := "0x6A000F20005980200259B80c5102003040001068";
     DirectContractMethods := ["swapExactAmountInOnUniswapV3"];
     getBlockNumber := 19000000;
     getPoolIdentifiers := λ _ _ _ _ _, [];
     getPoolPrices := λ _ _ _ _ _ _ _ _, Some [];
     optimizeRate := λ r, r;
     getDexByKey :=
       λ key,
         if String.eqb key "UniswapV3" then
           Some {| preProcessTransaction := None; getTokenFromAddress := None |}
         else None;
     getTxBuilderDexByKey := λ key, key;
     getDexCallsParams := λ _ _ _ _ _ _ _ _, NULL_ADDRESS;
     build := λ params, Ok params |}.

(** An adapter service that knows two venues, one of them for limit
    orders. *)
Definition service : DexAdapterService :=
  {| Dex := string;
     LimitOrderProvider := string;
     DexAdapterService_getDexByKey :=
       λ key,
         if (String.eqb key "UniswapV3" || String.eqb key "ParaSwapLimitOrders")%bool
         then Ok key
         else Throw (Error "Invalid Dex Key");
     instanceOfLimitOrderExchange := λ dex, String.eqb dex "ParaSwapLimitOrders" |}.

End MoreSamples.

(** ** Properties of the route merger *)

Section MergeProperties.
Context {curve : CurveConfig}.

Lemma forEach_app {S A} (f : S → A → option S) st l1 l2 :
  forEach f st (l1 ++ l2) = forEach f st l1 ≫= λ st', forEach f st' l2.
Proof.
  revert st. induction l1 as [|x l1 IH]; intros st; simpl; [done|].
  destruct (f st x) as [st'|]; simpl; [apply IH|done].
Qed.

Lemma step_unmergeable st s :
  mergeable s = false →
  fixRoute_step st s =
    Some {| optimizedRate := optimizedRate st ++ [s]; lastExchange := None |}.
Proof.
  unfold mergeable, fixRoute_step.
  destruct (Swap.swapExchanges s) as [|se [|]]; try done.
  by intros ->.
Qed.

Lemma step_start st s :
  mergeable s = true → lastExchange st = None →
  fixRoute_step st s =
    Some {| optimizedRate := optimizedRate st ++ [s];
            lastExchange := Some (length (optimizedRate st)) |}.
Proof.
  unfold mergeable, fixRoute_step.
  destruct (Swap.swapExchanges s) as [|se [|]]; try done.
  by intros -> ->.
Qed.

Lemma step_pending st s ref le :
  mergeable s = true → lastExchange st = Some ref →
  optimizedRate st !! ref = Some le →
  fixRoute_step st s =
    b ← boundary le s;
    if b : bool then
      le0 ← head (Swap.swapExchanges le);
      se ← head (Swap.swapExchanges s);
      firstLeg ← head (Data.path (SwapExchange.data se));
      pools ← SwapExchange.poolAddresses le0;
      spools ← SwapExchange.poolAddresses se;
      Some {| optimizedRate :=
                <[ref := fuse le le0 pools s se firstLeg spools]> (optimizedRate st);
              lastExchange := Some ref |}
    else Some {| optimizedRate := optimizedRate st ++ [s];
                 lastExchange := Some (length (optimizedRate st)) |}.
Proof.
  unfold mergeable, fixRoute_step, boundary.
  destruct (Swap.swapExchanges s) as [|se [|]]; try done.
  intros -> -> ->; simpl.
  destruct (head (Swap.swapExchanges le)) as [le0|]; simpl; [|done].
  destruct (last _) as [lastLeg|]; simpl; [|done].
  destruct (head (Data.path _)) as [firstLeg|]; simpl; [|done].
  by destruct (String.eqb _ _).
Qed.

Lemma insert_snoc {A} (l : list A) (x y : A) :
  <[length l := y]> (l ++ [x]) = l ++ [y].
Proof.
  replace (length l) with (length l + 0) at 1 by lia.
  by rewrite insert_app_r.
Qed.

Lemma pendingOf_snoc l x :
  pendingOf (l ++ [x]) = if mergeable x then Some (length l) else None.
Proof.
  unfold pendingOf. rewrite last_snoc, length_app; simpl.
  by replace (length l + 1 - 1) with (length l) by lia.
Qed.

Lemma pendingOf_Some l i :
  pendingOf l = Some i →
  ∃ pre a, l = pre ++ [a] ∧ i = length pre ∧ mergeable a = true.
Proof.
  destruct l as [|x l _] using rev_ind; [done|].
  rewrite pendingOf_snoc. destruct (mergeable x) eqn:Hx; [|done].
  intros [= <-]. by exists l, x.
Qed.

Lemma pendingOf_None l a :
  pendingOf l = None → last l = Some a → mergeable a = false.
Proof. unfold pendingOf. intros Hp Hl. rewrite Hl in Hp. by destruct (mergeable a). Qed.

Lemma settled_app_l l k : settled (l ++ k) → settled l.
Proof.
  intros Hs i a b Ha Hb. apply (Hs i); by apply lookup_app_l_Some.
Qed.

Lemma settled_snoc l x :
  settled l →
  (∀ a, last l = Some a → mergeable a = true → mergeable x = true →
        boundary a x = Some false) →
  settled (l ++ [x]).
Proof.
  intros Hs Hx i a b Ha Hb Hma Hmb.
  destruct (decide (S i < length l)) as [Hlt|Hge].
  - rewrite lookup_app_l in Ha by lia. rewrite lookup_app_l in Hb by lia.
    by apply (Hs i).
  - assert (S i = length l) as Hi.
    { apply lookup_lt_Some in Hb. rewrite length_app in Hb; simpl in Hb. lia. }
    rewrite lookup_app_l in Ha by lia.
    rewrite Hi, lookup_app_r, Nat.sub_diag in Hb by lia.
    injection Hb as <-. apply Hx; [|done..].
    rewrite last_lookup. by replace (pred (length l)) with i by lia.
Qed.

Lemma mergeable_single s :
  mergeable s = true → ∃ se, Swap.swapExchanges s = [se].
Proof.
  unfold mergeable. destruct (Swap.swapExchanges s) as [|se [|]]; try done.
  by exists se.
Qed.

Lemma mergeable_fuse a a0 pools s se firstLeg spools :
  mergeable a = true → head (Swap.swapExchanges a) = Some a0 →
  mergeable (fuse a a0 pools s se firstLeg spools) = true.
Proof.
  unfold mergeable, fuse; simpl.
  destruct (Swap.swapExchanges a) as [|x [|]]; try done.
  by intros ? [= ->].
Qed.

Lemma boundary_fuse p a a0 pools s se firstLeg spools b :
  head (Swap.swapExchanges a) = Some a0 →
  boundary p a = Some b →
  boundary p (fuse a a0 pools s se firstLeg spools) = Some b.
Proof.
  unfold boundary, fuse; simpl. intros ->; simpl.
  destruct (head (Swap.swapExchanges p)) as [p0|]; simpl; [|done].
  destruct (last _) as [lastLeg|]; simpl; [|done].
  by destruct (Data.path (SwapExchange.data a0)).
Qed.

Lemma step_inv st s st' :
  merge_inv st → fixRoute_step st s = Some st' → merge_inv st'.
Proof.
  intros [Hs Hp] Hstep. destruct (mergeable s) eqn:Hm.
  - destruct (lastExchange st) as [ref|] eqn:Hl.
    + symmetry in Hp. destruct (pendingOf_Some _ _ Hp) as (pre & a & Hout & -> & Ha).
      assert (optimizedRate st !! length pre = Some a) as Hlook.
      { by rewrite Hout, lookup_app_r, Nat.sub_diag by lia. }
      rewrite (step_pending _ _ _ _ Hm Hl Hlook) in Hstep.
      destruct (boundary a s) as [[]|] eqn:Hb; simpl in Hstep; [| |done].
      * destruct (head (Swap.swapExchanges a)) as [a0|] eqn:Ha0; simpl in Hstep; [|done].
        destruct (head (Swap.swapExchanges s)) as [se|]; simpl in Hstep; [|done].
        destruct (head (Data.path _)) as [firstLeg|]; simpl in Hstep; [|done].
        destruct (SwapExchange.poolAddresses a0) as [pools|]; simpl in Hstep; [|done].
        destruct (SwapExchange.poolAddresses se) as [spools|]; simpl in Hstep; [|done].
        injection Hstep as <-. unfold merge_inv; simpl.
        rewrite Hout in Hs |- *.
        rewrite insert_snoc. split.
        -- apply settled_snoc; [by eapply settled_app_l|].
           intros p Hlast Hmp _. apply boundary_fuse; [done|].
           rewrite last_lookup in Hlast.
           destruct pre as [|p' pre'] using rev_ind; [done|].
           rewrite length_app in Hlast; simpl in Hlast.
           replace (pred (length pre' + 1)) with (length pre') in Hlast by lia.
           apply (Hs (length pre')); [..|done|done].
           ++ rewrite lookup_app_l by (rewrite length_app; simpl; lia). done.
           ++ rewrite lookup_app_r by (rewrite length_app; simpl; lia).
              rewrite length_app; simpl.
              by replace (S (length pre') - (length pre' + 1)) with 0 by lia.
        -- rewrite pendingOf_snoc. by rewrite mergeable_fuse.
      * injection Hstep as <-. unfold merge_inv; simpl. split.
        -- apply settled_snoc; [done|]. intros a' Hlast _ _.
           rewrite Hout, last_snoc in Hlast. by injection Hlast as <-.
        -- by rewrite pendingOf_snoc, Hm.
    + rewrite (step_start _ _ Hm Hl) in Hstep. injection Hstep as <-.
      unfold merge_inv; simpl. split.
      * apply settled_snoc; [done|]. intros a Hlast Ha _.
        symmetry in Hp. by rewrite (pendingOf_None _ _ Hp Hlast) in Ha.
      * by rewrite pendingOf_snoc, Hm.
  - rewrite (step_unmergeable _ _ Hm) in Hstep. injection Hstep as <-.
    unfold merge_inv; simpl. split.
    + apply settled_snoc; [done|]. intros a _ _ Hx. by rewrite Hm in Hx.
    + by rewrite pendingOf_snoc, Hm.
Qed.

Lemma forEach_inv st l st' :
  merge_inv st → forEach fixRoute_step st l = Some st' → merge_inv st'.
Proof.
  revert st. induction l as [|s l IH]; intros st Hinv; simpl.
  - by intros [= <-].
  - destruct (fixRoute_step st s) as [st1|] eqn:Hstep; simpl; [|done].
    apply IH. by eapply step_inv.
Qed.

Lemma forEach_settled hops :
  settled hops →
  forEach fixRoute_step {| optimizedRate := []; lastExchange := None |} hops =
    Some {| optimizedRate := hops; lastExchange := pendingOf hops |}.
Proof.
  induction hops as [|x hops IH] using rev_ind; intros Hs; [done|].
  rewrite forEach_app, IH by (by eapply settled_app_l). simpl.
  rewrite pendingOf_snoc.
  destruct (mergeable x) eqn:Hm.
  - destruct (pendingOf hops) as [ref|] eqn:Hp.
    + destruct (pendingOf_Some _ _ Hp) as (pre & a & -> & -> & Ha).
      erewrite step_pending; [|done|done|]; simpl; last first.
      { by rewrite lookup_app_r, Nat.sub_diag by lia. }
      rewrite (Hs (length pre) a x); [done|..|done|done].
      * rewrite lookup_app_l by (rewrite length_app; simpl; lia).
        by rewrite lookup_app_r, Nat.sub_diag by lia.
      * rewrite lookup_app_r by (rewrite length_app; simpl; lia).
        rewrite length_app; simpl.
        by replace (S (length pre) - (length pre + 1)) with 0 by lia.
    + by rewrite step_start.
  - by rewrite step_unmergeable.
Qed.

Lemma fixRoute_idempotent rawRate hops :
  fixRoute rawRate = Some hops → fixRoute hops = Some hops.
Proof.
  unfold fixRoute. intros Hfix.
  destruct (forEach _ _ rawRate) as [st|] eqn:Hrun; simpl in Hfix; [|done].
  injection Hfix as <-.
  apply forEach_inv in Hrun as [Hs _]; [|by split].
  by rewrite forEach_settled.
Qed.


Lemma fixRouteOf_idempotent r r' :
  fixRouteOf r = Some r' → fixRouteOf r' = Some r'.
Proof.
  unfold fixRouteOf. intros Hr.
  destruct (fixRoute (Route.swaps r)) as [hops|] eqn:Hfix; simpl in Hr; [|done].
  injection Hr as <-; simpl.
  by rewrite (fixRoute_idempotent _ _ Hfix).
Qed.

Lemma mapM_fixRouteOf_idempotent routes routes' :
  mapM fixRouteOf routes = Some routes' →
  mapM fixRouteOf routes' = Some routes'.
Proof.
  rewrite !mapM_Some. induction 1 as [|r r' ? ? Hr _ IH]; constructor; [|done].
  by eapply fixRouteOf_idempotent.
Qed.

Lemma curveV1Merge_V6 or :
  Rate.version or = V6 →
  curveV1Merge or =
    routes ← mapM fixRouteOf (Rate.bestRoute or);
    Some (Rate.set_bestRoute routes or).
Proof. unfold curveV1Merge. intros ->. by case_decide. Qed.

Lemma curveV1Merge_not_V6 or :
  Rate.version or ≠ V6 → curveV1Merge or = Some or.
Proof. intros HV. unfold curveV1Merge. by case_decide. Qed.

(** C2.  The merger is idempotent: merging a second time gives what the
    first merge gave, and a rate on which the merger throws makes the
    double merge throw as well. *)
Theorem curveV1Merge_idempotent or :
  curveV1Merge or ≫= curveV1Merge = curveV1Merge or.
Proof.
  destruct (decide (Rate.version or = V6)) as [HV|HV].
  - rewrite (curveV1Merge_V6 _ HV).
    destruct (mapM fixRouteOf (Rate.bestRoute or)) as [routes|] eqn:Hmap;
      simpl; [|done].
    rewrite curveV1Merge_V6 by done. simpl.
    by rewrite (mapM_fixRouteOf_idempotent _ _ Hmap).
  - rewrite (curveV1Merge_not_V6 _ HV). simpl. by apply curveV1Merge_not_V6.
Qed.

(** C4.  On a rate whose version is not V6 the merger is the identity:
    it returns its input. *)
Theorem curveV1Merge_other_version or :
  Rate.version or ≠ V6 → curveV1Merge or = Some or.
Proof. apply curveV1Merge_not_V6. Qed.

Lemma step_length st s st' :
  fixRoute_step st s = Some st' →
  optimizedRate st' = optimizedRate st ++ [s] ∨
  length (optimizedRate st') = length (optimizedRate st).
Proof.
  intros Hstep. destruct (mergeable s) eqn:Hm.
  - destruct (lastExchange st) as [ref|] eqn:Hl.
    + destruct (optimizedRate st !! ref) as [le|] eqn:Hle.
      * rewrite (step_pending _ _ _ _ Hm Hl Hle) in Hstep.
        destruct (boundary le s) as [[]|]; simpl in Hstep; [| |done].
        -- repeat (match type of Hstep with
                   | (mbind _ ?o) = _ => destruct o; simpl in Hstep; [|done]
                   end).
           injection Hstep as <-; simpl. right. apply length_insert.
        -- injection Hstep as <-. by left.
      * unfold fixRoute_step in Hstep. rewrite Hl, Hle in Hstep.
        destruct (mergeable_single _ Hm) as [se Hse].
        unfold mergeable in Hm. rewrite Hse in Hm, Hstep. by rewrite Hm in Hstep.
    + rewrite (step_start _ _ Hm Hl) in Hstep. injection Hstep as <-. by left.
  - rewrite (step_unmergeable _ _ Hm) in Hstep. injection Hstep as <-. by left.
Qed.

Lemma forEach_length st l st' :
  forEach fixRoute_step st l = Some st' →
  length (optimizedRate st') ≤ length (optimizedRate st) + length l ∧
  (length (optimizedRate st') = length (optimizedRate st) + length l →
   optimizedRate st' = optimizedRate st ++ l).
Proof.
  revert st. induction l as [|s l IH]; intros st; simpl.
  - intros [= <-]. rewrite app_nil_r. split; [lia|done].
  - destruct (fixRoute_step st s) as [st1|] eqn:Hstep; simpl; [|done].
    intros [Hle Heq]%IH.
    destruct (step_length _ _ _ Hstep) as [Hpush|Hsame].
    + rewrite Hpush, length_app in Hle, Heq; simpl in Hle, Heq.
      split; [lia|]. intros Hlen. rewrite Heq by lia. by rewrite <-app_assoc.
    + rewrite Hsame in Hle. split; lia.
Qed.

Lemma fixRoute_length rawRate hops :
  fixRoute rawRate = Some hops →
  length hops ≤ length rawRate ∧ (length hops = length rawRate → hops = rawRate).
Proof.
  unfold fixRoute. intros Hfix.
  destruct (forEach _ _ rawRate) as [st|] eqn:Hrun; simpl in Hfix; [|done].
  injection Hfix as <-. by apply forEach_length in Hrun.
Qed.

(** C3.  The merger changes nothing of a rate but [bestRoute]: the
    amounts and every other top-level field stay.  It keeps the number of
    routes and the percent of every route, never lengthens the hop sequence
    of a route, and leaves a route as it was unless its hop sequence became
    shorter. *)
Theorem curveV1Merge_frame or or' :
  curveV1Merge or = Some or' →
  or' = Rate.set_bestRoute (Rate.bestRoute or') or ∧
  Rate.srcAmount or' = Rate.srcAmount or ∧
  Rate.destAmount or' = Rate.destAmount or ∧
  length (Rate.bestRoute or') = length (Rate.bestRoute or) ∧
  Forall2 (λ r r',
             Route.percent r' = Route.percent r ∧
             length (Route.swaps r') ≤ length (Route.swaps r) ∧
             (length (Route.swaps r') = length (Route.swaps r) → r' = r))
          (Rate.bestRoute or) (Rate.bestRoute or').
Proof.
  destruct (decide (Rate.version or = V6)) as [HV|HV].
  - rewrite (curveV1Merge_V6 _ HV).
    destruct (mapM fixRouteOf (Rate.bestRoute or)) as [routes|] eqn:Hmap;
      simpl; [|done].
    intros [= <-]; simpl. repeat split.
    + symmetry. by eapply length_mapM.
    + apply mapM_Some in Hmap. eapply Forall2_impl; [exact Hmap|].
      intros r r'; simpl. unfold fixRouteOf.
      destruct (fixRoute (Route.swaps r)) as [hops|] eqn:Hfix; simpl; [|done].
      intros [= <-]; simpl.
      destruct (fixRoute_length _ _ Hfix) as [Hle Heq].
      repeat split; [done|]. intros ->%Heq. by destruct r.
  - rewrite curveV1Merge_not_V6 by done. intros [= <-].
    repeat split; [by destruct or|].
    apply Forall2_same_length_lookup_2; [done|].
    intros i r r' Hr Hr'. rewrite Hr in Hr'. injection Hr' as <-. by repeat split.
Qed.


(** The merger does not throw when every hop that can take part in a merge
    has a path with a leg and an array of pool addresses. *)
Lemma step_total st s :
  (mergeable s = true → wellFormed s) →
  pendingWellFormed st →
  ∃ st', fixRoute_step st s = Some st' ∧ pendingWellFormed st'.
Proof.
  intros Hs Hst. destruct (mergeable s) eqn:Hm.
  - destruct (mergeable_single _ Hm) as [se Hse].
    destruct (Hs eq_refl se Hse) as [Hpath [spools Hspools]].
    assert (pendingWellFormed
              {| optimizedRate := optimizedRate st ++ [s];
                 lastExchange := Some (length (optimizedRate st)) |}) as Hpush.
    { intros ref [= <-]; simpl. exists s, se, [].
      by rewrite lookup_app_r, Nat.sub_diag by lia. }
    destruct (lastExchange st) as [ref|] eqn:Hl.
    + destruct (Hst ref Hl) as (le & le0 & rest & Hle & Hle0 & Hlpath & [pools Hpools]).
      rewrite (step_pending _ _ _ _ Hm Hl Hle). unfold boundary.
      rewrite Hle0, Hse; simpl.
      destruct (last (Data.path (SwapExchange.data le0))) as [lastLeg|] eqn:Hlast;
        [|by apply last_None in Hlast].
      destruct (Data.path (SwapExchange.data se)) as [|firstLeg legs] eqn:Hlegs;
        [done|]; simpl.
      destruct (String.eqb _ _); simpl.
      * rewrite Hpools, Hspools; simpl. eexists. split; [done|].
        intros ref' [= <-]; simpl.
        exists (fuse le le0 pools s se firstLeg spools). eexists _, _.
        split; [apply list_lookup_insert_eq; by eapply lookup_lt_Some|].
        split; [reflexivity|]. simpl. split; [|by eexists].
        by destruct (Data.path (SwapExchange.data le0)).
      * by eexists.
    + rewrite (step_start _ _ Hm Hl). by eexists.
  - rewrite (step_unmergeable _ _ Hm). eexists. split; [done|]. by intros ref.
Qed.

Lemma forEach_total st rawRate :
  Forall (λ s, mergeable s = true → wellFormed s) rawRate →
  pendingWellFormed st →
  is_Some (forEach fixRoute_step st rawRate).
Proof.
  intros Hall. revert st. induction Hall as [|s l Hs _ IH]; intros st Hst; simpl.
  - by eexists.
  - destruct (step_total st s Hs Hst) as (st' & -> & Hst'); simpl. by apply IH.
Qed.

Lemma curveV1Merge_total or :
  Forall (λ r, Forall (λ s, mergeable s = true → wellFormed s) (Route.swaps r))
         (Rate.bestRoute or) →
  is_Some (curveV1Merge or).
Proof.
  intros Hall. unfold curveV1Merge. case_decide; [by eexists|].
  assert (is_Some (mapM fixRouteOf (Rate.bestRoute or))) as [routes ->];
    [|by eexists].
  apply mapM_is_Some. eapply Forall_impl; [exact Hall|].
  intros r Hr; simpl. unfold fixRouteOf, fixRoute.
  destruct (forEach_total {| optimizedRate := []; lastExchange := None |} _ Hr)
    as [st ->]; [by intros ref|]. by eexists.
Qed.

(** What one call of the callback does when it fuses. *)
Lemma step_fuse st s ref le le0 rest se firstLeg moreLegs pools spools :
  lastExchange st = Some ref →
  optimizedRate st !! ref = Some le →
  Swap.swapExchanges le = le0 :: rest →
  Swap.swapExchanges s = [se] →
  JS.includes CurveV1FactoryForks (JS.toLowerCase (SwapExchange.exchange se)) = true →
  Data.path (SwapExchange.data se) = firstLeg :: moreLegs →
  boundary le s = Some true →
  SwapExchange.poolAddresses le0 = Some pools →
  SwapExchange.poolAddresses se = Some spools →
  fixRoute_step st s =
    Some {| optimizedRate :=
              <[ref := fuse le le0 pools s se firstLeg spools]> (optimizedRate st);
            lastExchange := Some ref |}.
Proof.
  intros Hl Hle Hle0 Hse Hin Hpath Hb Hpools Hspools.
  rewrite (step_pending st s ref le); [|by unfold mergeable; rewrite Hse|done..].
  rewrite Hb; simpl. rewrite Hle0, Hse; simpl. rewrite Hpath; simpl.
  by rewrite Hpools, Hspools.
Qed.

(** C9.  When the callback fuses the hop [s] into the pending hop, the
    path of the pending hop grows by the first leg of the path of [s] and
    its pool addresses by the first pool address of [s], whatever legs
    [moreLegs] and pool addresses [morePools] follow them in [s]; these are
    dropped.  The output sequence does not grow. *)
Theorem fuse_takes_first_leg_and_pool
    st s ref le le0 rest se firstLeg moreLegs pools pool morePools :
  lastExchange st = Some ref →
  optimizedRate st !! ref = Some le →
  Swap.swapExchanges le = le0 :: rest →
  Swap.swapExchanges s = [se] →
  JS.includes CurveV1FactoryForks (JS.toLowerCase (SwapExchange.exchange se)) = true →
  Data.path (SwapExchange.data se) = firstLeg :: moreLegs →
  boundary le s = Some true →
  SwapExchange.poolAddresses le0 = Some pools →
  SwapExchange.poolAddresses se = Some (pool :: morePools) →
  ∃ le' le0',
    fixRoute_step st s =
      Some {| optimizedRate := <[ref := le']> (optimizedRate st);
              lastExchange := Some ref |} ∧
    length (<[ref := le']> (optimizedRate st)) = length (optimizedRate st) ∧
    Swap.swapExchanges le' = le0' :: rest ∧
    Data.path (SwapExchange.data le0') =
      Data.path (SwapExchange.data le0) ++ [firstLeg] ∧
    SwapExchange.poolAddresses le0' = Some (pools ++ [pool]).
Proof.
  intros Hl Hle Hle0 Hse Hin Hpath Hb Hpools Hspools.
  eexists _, _. split; [by eapply step_fuse|].
  split; [apply length_insert|]. simpl. by rewrite Hle0.
Qed.

(** C1, amended.  The callback of [fixRoute] reaches the hop [s] while
    [lastExchange] refers to the hop [le] at position [ref] of the output,
    whatever that position is and whatever the other hops of the output
    are.  [s] has one swap exchange, on a venue of the family; [s] and
    [le] have pool address arrays, and the output token of the last leg of
    [le] is, up to case, the input token of the first leg of [s].  Then the
    callback emits no hop: it replaces [le], and no other hop, by a hop [m].
    The gas cost of [m] is [toFixed(6)] of the binary64 sum of the two gas
    costs as [parseFloat] reads them; its path is the path of [le] followed
    by the first leg of [s], which is the concatenation of the two paths
    when the path of [s] has one leg; its pool addresses are those of [le]
    followed by the first of [s]; its destination token, decimals and
    amount are those of [s], and the rest is that of [le].  For every
    sequence [pre] of hops that brings [fixRoute] to this state, a route
    [pre ++ [s]] of a V6 rate is merged to the output with [m] in the place
    of [le], and on a longer route the merger goes on from there.  (In a
    state [fixRoute] reaches, [lastExchange] refers to the last hop emitted
    when that is a hop of the family with one swap exchange, see
    [merge_inv]: [le] is the hop before [s], or what earlier merges made of
    it.) *)
Theorem merge_two_hops
    st s ref le le0 rest se lastLeg firstLeg moreLegs pools spools :
  lastExchange st = Some ref →
  optimizedRate st !! ref = Some le →
  Swap.swapExchanges le = le0 :: rest →
  Swap.swapExchanges s = [se] →
  JS.includes CurveV1FactoryForks (JS.toLowerCase (SwapExchange.exchange se)) = true →
  last (Data.path (SwapExchange.data le0)) = Some lastLeg →
  Data.path (SwapExchange.data se) = firstLeg :: moreLegs →
  JS.toLowerCase (Leg.tokenOut lastLeg) = JS.toLowerCase (Leg.tokenIn firstLeg) →
  SwapExchange.poolAddresses le0 = Some pools →
  SwapExchange.poolAddresses se = Some spools →
  ∃ m me,
    fixRoute_step st s =
      Some {| optimizedRate := <[ref := m]> (optimizedRate st);
              lastExchange := Some ref |} ∧
    <[ref := m]> (optimizedRate st) !! ref = Some m ∧
    length (<[ref := m]> (optimizedRate st)) = length (optimizedRate st) ∧
    (∀ j, j ≠ ref →
          <[ref := m]> (optimizedRate st) !! j = optimizedRate st !! j) ∧
    (∀ pre,
       forEach fixRoute_step {| optimizedRate := []; lastExchange := None |} pre =
         Some st →
       fixRoute (pre ++ [s]) = Some (<[ref := m]> (optimizedRate st)) ∧
       (∀ post,
          fixRoute (pre ++ s :: post) =
            optimizedRate <$>
              forEach fixRoute_step
                {| optimizedRate := <[ref := m]> (optimizedRate st);
                   lastExchange := Some ref |} post) ∧
       (∀ or k r or',
          Rate.version or = V6 →
          Rate.bestRoute or !! k = Some r →
          Route.swaps r = pre ++ [s] →
          curveV1Merge or = Some or' →
          Rate.bestRoute or' !! k =
            Some (Route.mk (Route.percent r) (<[ref := m]> (optimizedRate st))))) ∧
    Swap.swapExchanges m = me :: rest ∧
    Data.gasUSD (SwapExchange.data me) =
      JS.toFixed6
        (JS.add (JS.parseFloat (Data.gasUSD (SwapExchange.data le0)))
                (JS.parseFloat (Data.gasUSD (SwapExchange.data se)))) ∧
    Data.path (SwapExchange.data me) =
      Data.path (SwapExchange.data le0) ++ [firstLeg] ∧
    (moreLegs = [] →
     Data.path (SwapExchange.data me) =
       Data.path (SwapExchange.data le0) ++ Data.path (SwapExchange.data se)) ∧
    SwapExchange.poolAddresses me = Some (pools ++ [mjoin (spools !! 0)]) ∧
    Swap.destToken m = Swap.destToken s ∧
    Swap.destDecimals m = Swap.destDecimals s ∧
    SwapExchange.destAmount me = SwapExchange.destAmount se ∧
    Swap.srcToken m = Swap.srcToken le ∧
    Swap.srcDecimals m = Swap.srcDecimals le ∧
    SwapExchange.exchange me = SwapExchange.exchange le0 ∧
    SwapExchange.srcAmount me = SwapExchange.srcAmount le0 ∧
    SwapExchange.percent me = SwapExchange.percent le0 ∧
    Data.rest (SwapExchange.data me) = Data.rest (SwapExchange.data le0).
Proof.
  intros Hl Hle Hle0 Hse Hin Hlast Hpath Htok Hpools Hspools.
  assert (boundary le s = Some true) as Hb.
  { unfold boundary. rewrite Hle0, Hse; simpl. rewrite Hlast, Hpath; simpl.
    by rewrite Htok, String.eqb_refl. }
  pose proof (step_fuse st s ref le le0 rest se firstLeg moreLegs pools spools
                Hl Hle Hle0 Hse Hin Hpath Hb Hpools Hspools) as Hstep.
  assert (ref < length (optimizedRate st)) as Hlt by (by eapply lookup_lt_Some).
  eexists _, _. split; [exact Hstep|].
  split; [by apply list_lookup_insert_eq|].
  split; [apply length_insert|].
  split; [intros j Hj; by apply list_lookup_insert_ne|].
  split.
  { intros pre Hpre.
    assert (∀ post,
              fixRoute (pre ++ s :: post) =
                optimizedRate <$>
                  forEach fixRoute_step
                    {| optimizedRate :=
                         <[ref := fuse le le0 pools s se firstLeg spools]>
                           (optimizedRate st);
                       lastExchange := Some ref |} post) as Hgo.
    { intros post. unfold fixRoute. rewrite forEach_app, Hpre; simpl.
      by rewrite Hstep. }
    assert (fixRoute (pre ++ [s]) =
            Some (<[ref := fuse le le0 pools s se firstLeg spools]>
                    (optimizedRate st))) as Hfix.
    { by rewrite Hgo. }
    split; [exact Hfix|]. split; [exact Hgo|].
    intros or k r or' HV Hr Hswaps. rewrite curveV1Merge_V6 by done.
    destruct (mapM fixRouteOf (Rate.bestRoute or)) as [routes|] eqn:Hmap;
      simpl; [|done].
    intros [= <-]; simpl. apply mapM_Some in Hmap.
    destruct (Forall2_lookup_l _ _ _ _ _ Hmap Hr) as (r' & -> & Hr').
    unfold fixRouteOf in Hr'. rewrite Hswaps, Hfix in Hr'.
    by injection Hr' as <-. }
  simpl. rewrite Hle0; simpl. repeat split; [|done..].
  intros ->. by rewrite Hpath.
Qed.

End MergeProperties.


(** ** Price sampling and quote selection *)

Section SamplingProperties.
Local Open Scope Z_scope.

Lemma amounts_lookup amount (i : nat) :
  (i ≤ 10)%nat →
  amounts amount !! i = Some ((amount * Z.of_nat i) `quot` 10).
Proof.
  intros Hi. unfold amounts, range, chunks.
  rewrite list_lookup_fmap, lookup_seqZ_lt by lia. simpl.
  by rewrite Z.add_0_l.
Qed.

(** C5.  For a non-negative amount the sampler gives eleven amounts, the
    one at index [i] being the floor of [amount * i / 10]; the first is 0,
    the last is the amount itself, and they do not decrease. *)
Theorem amounts_samples amount :
  0 ≤ amount →
  length (amounts amount) = 11%nat ∧
  (∀ i : nat, (i ≤ 10)%nat →
     amounts amount !! i = Some (amount * Z.of_nat i / 10)) ∧
  amounts amount !! 0%nat = Some 0 ∧
  amounts amount !! 10%nat = Some amount ∧
  (∀ (i j : nat) x y,
     (i ≤ j)%nat → amounts amount !! i = Some x → amounts amount !! j = Some y →
     x ≤ y).
Proof.
  intros Hamount.
  assert (∀ i : nat, (i ≤ 10)%nat →
            amounts amount !! i = Some (amount * Z.of_nat i / 10)) as Hlook.
  { intros i Hi. rewrite amounts_lookup by done.
    by rewrite Z.quot_div_nonneg by lia. }
  assert (length (amounts amount) = 11%nat) as Hlen.
  { unfold amounts, range, chunks. by rewrite length_fmap, length_seqZ. }
  split; [done|]. split; [done|].
  split; [by rewrite Hlook, Z.mul_0_r by lia|].
  split; [rewrite Hlook by lia; f_equal; by apply Z.div_mul|].
  intros i j x y Hij Hx Hy.
  assert (j ≤ 10)%nat.
  { apply lookup_lt_Some in Hy. lia. }
  rewrite Hlook in Hx, Hy by lia. injection Hx as <-. injection Hy as <-.
  apply Z.div_le_mono; [lia|]. apply Z.mul_le_mono_nonneg_l; lia.
Qed.
End SamplingProperties.

Section QuoteProperties.
Context {this : SDK}.

(** C6.  When the pricing layer returns a non-empty list of quotes and
    the first quote has a price for the terminal sample, [getPrices] takes
    the first quote and that price.  For SELL the source amount is the
    given amount and the destination amount is the quoted one, for BUY the
    other way round.  The rate it hands to the optimiser has one route with
    one swap with one swap exchange, on the venue of the quote, each with
    percent 100. *)
Theorem getPrices_first_quote
    from to amount side contractMethod _poolIdentifiers transferFees
    poolIdentifiers finalPrice otherPrices quoteAmount :
  poolIdentifiers =
    default (getPoolIdentifiers from to side getBlockNumber dexKeys)
            _poolIdentifiers →
  getPoolPrices from to (amounts amount) side getBlockNumber dexKeys
    poolIdentifiers transferFees = Some (finalPrice :: otherPrices) →
  PoolPrices.prices finalPrice !! 10%nat = Some quoteAmount →
  ∃ srcAmount destAmount,
    srcAmount = JS.bigintToString
                  (match side with SELL => amount | BUY => quoteAmount end) ∧
    destAmount = JS.bigintToString
                   (match side with SELL => quoteAmount | BUY => amount end) ∧
    ∃ rate,
      getPrices from to amount side contractMethod _poolIdentifiers transferFees =
        Ok (OptimalRate.mk (optimizeRate rate) "0" "0" "0" contractMethod 0) ∧
      Rate.srcAmount rate = srcAmount ∧
      Rate.destAmount rate = destAmount ∧
      Rate.side rate = side ∧
      Rate.bestRoute rate =
        [ Route.mk 100
            [ Swap.mk (address from) (decimals from) (address to) (decimals to)
                [ SwapExchange.mk (PoolPrices.exchange finalPrice)
                    srcAmount destAmount 100
                    (PoolPrices.data finalPrice)
                    (PoolPrices.poolAddresses finalPrice) ] ] ].
Proof.
  intros -> Hprices Hquote. eexists _, _. split; [done|]. split; [done|].
  eexists. unfold getPrices.
  replace (match _poolIdentifiers with
           | Some ids => ids
           | None => getPoolIdentifiers from to side getBlockNumber dexKeys
           end)
    with (default (getPoolIdentifiers from to side getBlockNumber dexKeys)
                  _poolIdentifiers) by (by destruct _poolIdentifiers).
  rewrite Hprices. change (Z.to_nat chunks) with 10%nat. rewrite Hquote.
  split; [reflexivity|]. simpl. by destruct side.
Qed.
End QuoteProperties.

(** ** Transaction assembly *)

Section DeadlineArithmetic.
Local Open Scope Z_scope.

Lemma bigintToNumber_safe d : Z.abs d < 2 ^ 53 → JS.bigintToNumber d = d.
Proof.
  intros Hd. unfold JS.bigintToNumber.
  destruct (Z.leb_spec (Z.log2 (Z.abs d) - 52) 0) as [|Hsh]; [done|].
  destruct (decide (Z.abs d = 0)) as [Hz|Hz].
  - rewrite Hz in Hsh. simpl in Hsh. lia.
  - assert (Z.log2 (Z.abs d) < 53); [|lia].
    apply Z.log2_lt_pow2; lia.
Qed.

Lemma reconcile_cases d txInfo :
  reconcile d txInfo =
    match txDeadline txInfo with
    | Some p =>
        if decide (p ≠ 0 ∧ JS.bigintToNumber p < d)
        then JS.bigintToNumber p else d
    | None => d
    end.
Proof.
  unfold reconcile. destruct (txDeadline txInfo) as [p|]; [|done].
  destruct (Z.eqb_spec p 0), (Z.ltb_spec (JS.bigintToNumber p) d);
    simpl; case_decide; try done; lia.
Qed.

Lemma reconcile_counted d se txInfo :
  reconcile d txInfo =
    fold_left Z.min (option_list (countedDeadline (Some (Ok (se, txInfo))))) d.
Proof.
  rewrite reconcile_cases. unfold countedDeadline.
  destruct txInfo as [[p|]]; simpl; [|done].
  destruct (Z.eqb_spec p 0); simpl; case_decide; lia.
Qed.

Lemma fold_min_le_init ps d : fold_left Z.min ps d ≤ d.
Proof.
  revert d. induction ps as [|p ps IH]; intros d; simpl; [lia|].
  etrans; [apply IH|lia].
Qed.

Lemma fold_min_le_elem ps d p : p ∈ ps → fold_left Z.min ps d ≤ p.
Proof.
  revert d. induction ps as [|q ps IH]; intros d; simpl.
  - by intros ?%elem_of_nil.
  - intros [->|Hin]%elem_of_cons; [|by apply IH].
    etrans; [apply fold_min_le_init|lia].
Qed.

Lemma fold_min_attained ps d :
  fold_left Z.min ps d = d ∨ fold_left Z.min ps d ∈ ps.
Proof.
  revert d. induction ps as [|q ps IH]; intros d; simpl; [by left|].
  destruct (IH (Z.min d q)) as [->|Hin].
  - destruct (Z.min_spec d q) as [[_ ->]|[_ ->]]; [by left|right; left].
  - right. by right.
Qed.

(** The order in which the venues answer does not matter. *)
Lemma fold_min_permutation ps qs d :
  ps ≡ₚ qs → fold_left Z.min ps d = fold_left Z.min qs d.
Proof.
  intros Hperm. revert d.
  induction Hperm as [|p ps qs _ IH|p q ps|ps qs rs _ IH1 _ IH2]; intros d; simpl.
  - done.
  - apply IH.
  - f_equal. lia.
  - by rewrite IH1.
Qed.
End DeadlineArithmetic.

Section AssemblyMonad.

Lemma mapAll_deadlines {A B} (f : nat → A → Assembly B) (g : nat → A → list Z) :
  (∀ i x d y d', f i x d = Ok (y, d') → d' = fold_left Z.min (g i x) d) →
  ∀ xs i d ys d',
    mapAll f i xs d = Ok (ys, d') →
    d' = fold_left Z.min (mjoin (imap (λ j, g (i + j)) xs)) d.
Proof.
  intros Hf xs. induction xs as [|x xs IH]; intros i d ys d'; simpl.
  - by intros [= _ <-].
  - unfold bind at 1. destruct (f i x d) as [[y d1]|e] eqn:Hx; [|done].
    unfold bind at 1.
    destruct (mapAll f (S i) xs d1) as [[ys' d2]|e] eqn:Hxs; [|done].
    intros [= _ <-]. rewrite fold_left_app, Nat.add_0_r.
    rewrite <-(Hf _ _ _ _ _ Hx). rewrite (IH _ _ _ _ Hxs).
    f_equal. f_equal. apply imap_ext. intros j z _; simpl. f_equal. lia.
Qed.

Lemma mapAll_throws {A B} (f : nat → A → Assembly B) xs i j x :
  xs !! j = Some x →
  (∀ d, ∃ e, f (i + j) x d = Throw e) →
  ∀ d, ∃ e, mapAll f i xs d = Throw e.
Proof.
  revert i j. induction xs as [|x' xs IH]; intros i j Hj Hthrow d; [done|].
  simpl. unfold bind at 1. destruct j as [|j]; simpl in Hj.
  - injection Hj as ->. rewrite Nat.add_0_r in Hthrow.
    destruct (Hthrow d) as [e ->]. by exists e.
  - destruct (f i x' d) as [[y d1]|e]; [|by exists e].
    unfold bind at 1.
    destruct (IH (S i) j Hj) with (d := d1) as [e ->]; [|by exists e].
    intros d'. replace (S i + j) with (i + S j) by lia. apply Hthrow.
Qed.

Lemma mapAll_Throw_inv {A B} (f : nat → A → Assembly B) xs i d e :
  mapAll f i xs d = Throw e →
  ∃ j x d', xs !! j = Some x ∧ f (i + j) x d' = Throw e.
Proof.
  revert i d. induction xs as [|x xs IH]; intros i d; simpl; [done|].
  unfold bind at 1. destruct (f i x d) as [[y d1]|e'] eqn:Hx.
  - unfold bind at 1.
    destruct (mapAll f (S i) xs d1) as [[ys d2]|e'] eqn:Hxs; [done|].
    intros [= ->]. destruct (IH _ _ Hxs) as (j & x' & d' & Hj & Hthrow).
    exists (S j), x', d'. split; [done|].
    by replace (i + S j) with (S i + j) by lia.
  - intros [= ->]. exists 0, x, d. by rewrite Nat.add_0_r.
Qed.

Lemma omap_join {A B} (h : A → option B) (l : list A) :
  mjoin (imap (λ _ x, option_list (h x)) l) = omap h l.
Proof.
  induction l as [|x l IH]; simpl; [done|].
  unfold compose. rewrite IH. by destruct (h x).
Qed.

End AssemblyMonad.

Section AssemblyProperties.
Context {this : SDK}.
Local Open Scope Z_scope.

Lemma bind_ret_Ok {A B} (m : Assembly A) (k : A → B) d y d' :
  bind m (λ x, ret (k x)) d = Ok (y, d') →
  ∃ x, m d = Ok (x, d') ∧ y = k x.
Proof.
  unfold bind, ret. destruct (m d) as [[x d1]|e]; [|done].
  intros [= <- <-]. by exists x.
Qed.

Lemma bind_Throw_l {A B} (m : Assembly A) (k : A → Assembly B) d e :
  m d = Throw e → bind m k d = Throw e.
Proof. unfold bind. by intros ->. Qed.

Lemma bind_ret_Throw {A B} (m : Assembly A) (k : A → B) d e :
  bind m (λ x, ret (k x)) d = Throw e → m d = Throw e.
Proof.
  unfold bind, ret. destruct (m d) as [[x d1]|e']; [done|by intros [= ->]].
Qed.

Section Exchange.
Variables (priceRoute : OptimalRate.t) (minMaxAmount : Z) (userAddress : Address).
Variables (routeIndex : nat) (swap : Swap.t) (swapIndex : nat) (se : SwapExchange.t).


Lemma preprocessExchange_passthrough slippage d :
  (getDexByKey (SwapExchange.exchange se) = None ∨
   ∃ dex, getDexByKey (SwapExchange.exchange se) = Some dex ∧
          preProcessTransaction dex = None) →
  preprocessExchange priceRoute minMaxAmount userAddress slippage
    routeIndex swap swapIndex se d = Ok (se, d).
Proof.
  unfold preprocessExchange. intros [->|(dex & -> & Hpre)]; [done|].
  destruct dex as [pre look]; simpl in Hpre. by rewrite Hpre.
Qed.

Lemma preprocessExchange_answered d se' txInfo :
  venueAnswer priceRoute minMaxAmount userAddress routeIndex swap swapIndex se =
    Some (Ok (se', txInfo)) →
  preprocessExchange priceRoute minMaxAmount userAddress
    (slippageOf priceRoute minMaxAmount) routeIndex swap swapIndex se d =
    Ok (se', reconcile d txInfo).
Proof.
  unfold venueAnswer, preprocessExchange.
  destruct (getDexByKey _) as [[[pre|] [look|]]|]; simpl; try done.
  intros [= ->]. unfold bind, await; simpl. reflexivity.
Qed.

Lemma preprocessExchange_cases d :
  match venueAnswer priceRoute minMaxAmount userAddress
          routeIndex swap swapIndex se with
  | Some (Ok (se', txInfo)) =>
      onExchange priceRoute minMaxAmount userAddress routeIndex swap swapIndex
        0%nat se d = Ok (se', reconcile d txInfo)
  | Some (Throw e) =>
      onExchange priceRoute minMaxAmount userAddress routeIndex swap swapIndex
        0%nat se d = Throw e
  | None =>
      onExchange priceRoute minMaxAmount userAddress routeIndex swap swapIndex
        0%nat se d = Throw ConfigurationError ∨
      onExchange priceRoute minMaxAmount userAddress routeIndex swap swapIndex
        0%nat se d = Ok (se, d)
  end.
Proof.
  unfold onExchange.
  destruct (venueAnswer _ _ _ _ _ _ _) as [[[se' txInfo]|e]|] eqn:Hanswer.
  - by apply preprocessExchange_answered.
  - revert Hanswer. unfold venueAnswer, preprocessExchange.
    destruct (getDexByKey _) as [[[pre|] [look|]]|]; simpl; try done.
    intros [= ->]. by unfold bind, await; simpl.
  - revert Hanswer. unfold venueAnswer, preprocessExchange.
    destruct (getDexByKey _) as [[[pre|] [look|]]|]; simpl; try done;
      intros _; auto.
Qed.

Lemma onExchange_counted i d se' d' :
  onExchange priceRoute minMaxAmount userAddress routeIndex swap swapIndex
    i se d = Ok (se', d') →
  d' = fold_left Z.min
         (option_list
            (countedDeadline
               (venueAnswer priceRoute minMaxAmount userAddress
                  routeIndex swap swapIndex se))) d.
Proof.
  pose proof (preprocessExchange_cases d) as Hcases. revert Hcases.
  unfold onExchange.
  destruct (venueAnswer _ _ _ _ _ _ _) as [[[se1 txInfo]|e]|].
  - intros ->. intros [= _ <-]. apply reconcile_counted.
  - by intros ->.
  - intros [->| ->]; [done|]. by intros [= _ <-].
Qed.

Lemma preprocessExchange_Throw slippage d e :
  preprocessingSucceeds →
  preprocessExchange priceRoute minMaxAmount userAddress slippage
    routeIndex swap swapIndex se d = Throw e →
  e = ConfigurationError.
Proof.
  intros Hsucc. unfold preprocessExchange.
  destruct (getDexByKey _) as [[[pre|] [look|]]|] eqn:Hdex; simpl; try done.
  - unfold bind, await.
    match goal with
    | |- context [pre ?a ?b ?c ?d ?o] =>
        destruct (pre a b c d o) as [[se' txInfo]|e'] eqn:Hpre
    end; [done|].
    by eapply Hsucc in Hpre.
  - by intros [= <-].
Qed.

End Exchange.

Section Traversal.
Variables (priceRoute : OptimalRate.t) (minMaxAmount : Z) (userAddress : Address).

Lemma buildParams_run now uuid :
  buildParams now uuid priceRoute minMaxAmount userAddress =
    match mapAll (onRoute priceRoute minMaxAmount userAddress) 0%nat
            (Rate.bestRoute (OptimalRate.rate priceRoute))
            (initialDeadline now) with
    | Throw e => Throw e
    | Ok (bestRoute, deadline) =>
        Ok (BuildParams.mk
              (OptimalRate.set_bestRoute bestRoute priceRoute)
              (JS.bigintToString minMaxAmount) userAddress NULL_ADDRESS "0"
              (integerToString deadline) uuid)
    end.
Proof. reflexivity. Qed.

Lemma assembly_counted d ys d' :
  mapAll (onRoute priceRoute minMaxAmount userAddress) 0%nat
    (Rate.bestRoute (OptimalRate.rate priceRoute)) d = Ok (ys, d') →
  d' = fold_left Z.min (countedDeadlines priceRoute minMaxAmount userAddress) d.
Proof.
  intros Hrun.
  apply (mapAll_deadlines _
           (λ routeIndex route,
              mjoin (imap (λ swapIndex swap,
                       omap (λ se,
                         countedDeadline
                           (venueAnswer priceRoute minMaxAmount userAddress
                              routeIndex swap swapIndex se))
                         (Swap.swapExchanges swap))
                     (Route.swaps route)))) in Hrun; [done|].
  intros routeIndex route d1 y1 d1' (swaps & Hswaps & _)%bind_ret_Ok.
  apply (mapAll_deadlines _
           (λ swapIndex swap,
              omap (λ se,
                countedDeadline
                  (venueAnswer priceRoute minMaxAmount userAddress
                     routeIndex swap swapIndex se))
                (Swap.swapExchanges swap))) in Hswaps; [done|].
  intros swapIndex swap d2 y2 d2' (ses & Hses & _)%bind_ret_Ok.
  apply (mapAll_deadlines _
           (λ _ se,
              option_list
                (countedDeadline
                   (venueAnswer priceRoute minMaxAmount userAddress
                      routeIndex swap swapIndex se)))) in Hses.
  - by rewrite omap_join in Hses.
  - intros i se d3 se' d3'. apply onExchange_counted.
Qed.

Lemma elem_of_countedDeadlines p :
  p ∈ countedDeadlines priceRoute minMaxAmount userAddress ↔
  ∃ routeIndex route swapIndex swap se,
    Rate.bestRoute (OptimalRate.rate priceRoute) !! routeIndex = Some route ∧
    Route.swaps route !! swapIndex = Some swap ∧
    se ∈ Swap.swapExchanges swap ∧
    countedDeadline
      (venueAnswer priceRoute minMaxAmount userAddress
         routeIndex swap swapIndex se) = Some p.
Proof.
  unfold countedDeadlines. rewrite list_elem_of_join. split.
  - intros (ps & Hp & (routeIndex & route & -> & Hroute)%elem_of_lookup_imap).
    apply list_elem_of_join in Hp
      as (qs & Hp & (swapIndex & swap & -> & Hswap)%elem_of_lookup_imap).
    apply list_elem_of_omap in Hp as (se & Hse & Hp).
    by exists routeIndex, route, swapIndex, swap, se.
  - intros (routeIndex & route & swapIndex & swap & se & Hroute & Hswap & Hse & Hp).
    eexists. split; [|apply elem_of_lookup_imap; by eexists _, _].
    apply list_elem_of_join.
    eexists. split; [|apply elem_of_lookup_imap; by eexists _, _].
    apply list_elem_of_omap. by exists se.
Qed.

Lemma assembly_throws routeIndex route swapIndex swap exchangeIndex se :
  Rate.bestRoute (OptimalRate.rate priceRoute) !! routeIndex = Some route →
  Route.swaps route !! swapIndex = Some swap →
  Swap.swapExchanges swap !! exchangeIndex = Some se →
  (∀ d, ∃ e,
     onExchange priceRoute minMaxAmount userAddress routeIndex swap swapIndex
       exchangeIndex se d = Throw e) →
  ∀ d, ∃ e,
    mapAll (onRoute priceRoute minMaxAmount userAddress) 0%nat
      (Rate.bestRoute (OptimalRate.rate priceRoute)) d = Throw e.
Proof.
  intros Hroute Hswap Hse Hthrow.
  apply (mapAll_throws _ _ _ _ _ Hroute); simpl. intros d.
  destruct (mapAll_throws
              (onSwap priceRoute minMaxAmount userAddress routeIndex)
              _ 0%nat _ _ Hswap) with (d := d)
    as [e He]; [|exists e; by apply bind_Throw_l].
  simpl. clear d. intros d.
  destruct (mapAll_throws
              (onExchange priceRoute minMaxAmount userAddress
                 routeIndex swap swapIndex)
              _ 0%nat _ _ Hse) with (d := d)
    as [e He]; [|exists e; by apply bind_Throw_l].
  simpl. apply Hthrow.
Qed.

Lemma assembly_Throw_inv d e :
  mapAll (onRoute priceRoute minMaxAmount userAddress) 0%nat
    (Rate.bestRoute (OptimalRate.rate priceRoute)) d = Throw e →
  ∃ routeIndex swap swapIndex se d',
    preprocessExchange priceRoute minMaxAmount userAddress
      (slippageOf priceRoute minMaxAmount) routeIndex swap swapIndex se d' =
      Throw e.
Proof.
  intros (routeIndex & route & d1 & _ & Hroute)%mapAll_Throw_inv.
  apply bind_ret_Throw, mapAll_Throw_inv in Hroute
    as (swapIndex & swap & d2 & _ & Hswap).
  apply bind_ret_Throw, mapAll_Throw_inv in Hswap
    as (exchangeIndex & se & d3 & _ & Hse).
  by eexists _, _, _, _, _.
Qed.

End Traversal.

(** The assembly succeeds when no preprocessing request fails and every
    venue that preprocesses can look tokens up. *)
Lemma buildParams_succeeds now uuid priceRoute minMaxAmount userAddress :
  preprocessingSucceeds →
  (∀ key dex, getDexByKey key = Some dex →
              is_Some (preProcessTransaction dex) →
              is_Some (getTokenFromAddress dex)) →
  ∃ params, buildParams now uuid priceRoute minMaxAmount userAddress = Ok params.
Proof.
  intros Hsucc Hlookup. rewrite buildParams_run.
  destruct (mapAll _ _ _ _) as [[bestRoute deadline]|e] eqn:Hrun; [by eexists|].
  apply assembly_Throw_inv in Hrun as (ri & swap & si & se & d & Hthrow).
  pose proof (preprocessExchange_Throw _ _ _ _ _ _ _ _ _ _ Hsucc Hthrow) as ->.
  revert Hthrow. unfold preprocessExchange.
  destruct (getDexByKey _) as [[[pre|] [look|]]|] eqn:Hdex; simpl; try done.
  - unfold bind, await.
    match goal with
    | |- context [pre ?a ?b ?c ?d ?o] =>
        destruct (pre a b c d o) as [[se' txInfo]|e'] eqn:Hpre
    end; [done|].
    by eapply Hsucc in Hpre.
  - intros _. destruct (Hlookup _ _ Hdex) as [? ?]; [by eexists|done].
Qed.

(** C7, amended.  The deadline in the payload is the decimal text of the
    least of the initial deadline, ten minutes after the clock reading, and
    the deadlines that count: those that a venue proposes in its answer
    and that are not [0n], converted by [Number].  So it is at most the
    initial deadline and at most every proposed deadline that is present
    and not 0, as [Number] converts it, which for a deadline of magnitude
    below [2 ^ 53] is the deadline itself; and it is the initial deadline
    or one of those. *)
Theorem buildParams_deadline now uuid priceRoute minMaxAmount userAddress params :
  buildParams now uuid priceRoute minMaxAmount userAddress = Ok params →
  ∃ final,
    BuildParams.deadline params = integerToString final ∧
    final = fold_left Z.min
              (countedDeadlines priceRoute minMaxAmount userAddress)
              (initialDeadline now) ∧
    final ≤ initialDeadline now ∧
    (∀ routeIndex route swapIndex swap se se' d,
       Rate.bestRoute (OptimalRate.rate priceRoute) !! routeIndex = Some route →
       Route.swaps route !! swapIndex = Some swap →
       se ∈ Swap.swapExchanges swap →
       venueAnswer priceRoute minMaxAmount userAddress
         routeIndex swap swapIndex se = Some (Ok (se', {| txDeadline := Some d |})) →
       d ≠ 0 →
       final ≤ JS.bigintToNumber d ∧ (Z.abs d < 2 ^ 53 → final ≤ d)) ∧
    (final = initialDeadline now ∨
     ∃ routeIndex route swapIndex swap se se' d,
       Rate.bestRoute (OptimalRate.rate priceRoute) !! routeIndex = Some route ∧
       Route.swaps route !! swapIndex = Some swap ∧
       se ∈ Swap.swapExchanges swap ∧
       venueAnswer priceRoute minMaxAmount userAddress
         routeIndex swap swapIndex se = Some (Ok (se', {| txDeadline := Some d |})) ∧
       d ≠ 0 ∧ final = JS.bigintToNumber d).
Proof.
  rewrite buildParams_run.
  destruct (mapAll _ _ _ _) as [[bestRoute deadline]|e] eqn:Hrun; [|done].
  intros [= <-]; simpl. apply assembly_counted in Hrun.
  exists deadline. split; [done|]. split; [done|]. rewrite Hrun.
  split; [apply fold_min_le_init|]. split.
  - intros routeIndex route swapIndex swap se se' d Hroute Hswap Hse Hanswer Hd.
    assert (fold_left Z.min
              (countedDeadlines priceRoute minMaxAmount userAddress)
              (initialDeadline now) ≤ JS.bigintToNumber d) as Hle.
    { apply fold_min_le_elem, elem_of_countedDeadlines.
      exists routeIndex, route, swapIndex, swap, se. repeat split; [done..|].
      rewrite Hanswer; simpl. by destruct (Z.eqb_spec d 0). }
    split; [done|]. intros Hsafe. by rewrite bigintToNumber_safe in Hle.
  - destruct (fold_min_attained
                (countedDeadlines priceRoute minMaxAmount userAddress)
                (initialDeadline now)) as [Hinit|Hin]; [by left|right].
    apply elem_of_countedDeadlines in Hin
      as (routeIndex & route & swapIndex & swap & se & Hroute & Hswap & Hse & Hp).
    unfold countedDeadline in Hp.
    destruct (venueAnswer _ _ _ _ _ _ _) as [[[se' [[d|]]]|]|] eqn:Hanswer;
      try done.
    destruct (Z.eqb_spec d 0); [done|]. injection Hp as Hp.
    by exists routeIndex, route, swapIndex, swap, se, se', d.
Qed.


(** C10.  A venue answers the preprocessing request for a swap exchange.
    When its answer has no deadline, or the deadline [0n], the callback
    leaves the current deadline [d] as it is, so a deadline of 0 does not
    become the deadline.  A deadline that is present and not 0 replaces
    [d] when, as a number, it is smaller than [d], and only then.  And
    when all answers to the requests of a rate have no deadline or the
    deadline 0, the payload carries the initial deadline. *)
Theorem falsy_deadline_is_ignored :
  (∀ priceRoute minMaxAmount userAddress routeIndex swap swapIndex se
     se' txInfo d,
     venueAnswer priceRoute minMaxAmount userAddress
       routeIndex swap swapIndex se = Some (Ok (se', txInfo)) →
     ∃ d',
       preprocessExchange priceRoute minMaxAmount userAddress
         (slippageOf priceRoute minMaxAmount)
         routeIndex swap swapIndex se d = Ok (se', d') ∧
       (txDeadline txInfo = None → d' = d) ∧
       (txDeadline txInfo = Some 0 → d' = d) ∧
       (∀ p, txDeadline txInfo = Some p → p ≠ 0 →
             JS.bigintToNumber p < d → d' = JS.bigintToNumber p) ∧
       (∀ p, txDeadline txInfo = Some p → d ≤ JS.bigintToNumber p → d' = d) ∧
       (d' ≠ d →
        ∃ p, txDeadline txInfo = Some p ∧ p ≠ 0 ∧
             JS.bigintToNumber p < d ∧ d' = JS.bigintToNumber p)) ∧
  (∀ now uuid priceRoute minMaxAmount userAddress params,
     buildParams now uuid priceRoute minMaxAmount userAddress = Ok params →
     (∀ routeIndex route swapIndex swap se se' txInfo,
        Rate.bestRoute (OptimalRate.rate priceRoute) !! routeIndex = Some route →
        Route.swaps route !! swapIndex = Some swap →
        se ∈ Swap.swapExchanges swap →
        venueAnswer priceRoute minMaxAmount userAddress
          routeIndex swap swapIndex se = Some (Ok (se', txInfo)) →
        txDeadline txInfo = None ∨ txDeadline txInfo = Some 0) →
     BuildParams.deadline params = integerToString (initialDeadline now)).
Proof.
  split.
  - intros priceRoute minMaxAmount userAddress routeIndex swap swapIndex se
      se' txInfo d Hanswer.
    exists (reconcile d txInfo).
    split; [by apply preprocessExchange_answered|].
    rewrite reconcile_cases.
    destruct (txDeadline txInfo) as [p|]; [|by repeat split].
    case_decide as Hp.
    + destruct Hp as [Hp0 Hlt].
      split_and!;
        [done | by intros [= ->] | by intros q [= <-] | intros q [= <-] ?; lia
        | intros _; by exists p].
    + split_and!; try done. intros q [= <-] ? ?. by destruct Hp.
  - intros now uuid priceRoute minMaxAmount userAddress params.
    rewrite buildParams_run.
    destruct (mapAll _ _ _ _) as [[bestRoute deadline]|e] eqn:Hrun; [|done].
    intros [= <-] Hfalsy; simpl. apply assembly_counted in Hrun.
    assert (countedDeadlines priceRoute minMaxAmount userAddress = []) as Hnone.
    { apply elem_of_nil_inv. intros p.
      intros (routeIndex & route & swapIndex & swap & se & Hroute & Hswap & Hse & Hp)
               %elem_of_countedDeadlines.
      unfold countedDeadline in Hp.
      destruct (venueAnswer _ _ _ _ _ _ _) as [[[se' txInfo]|]|] eqn:Hanswer;
        try done.
      destruct (Hfalsy _ _ _ _ _ _ _ Hroute Hswap Hse Hanswer) as [Hd|Hd];
        destruct txInfo as [d0]; simpl in Hd; by rewrite Hd in Hp. }
    by rewrite Hrun, Hnone.
Qed.


End AssemblyProperties.

(** ** The properties on the sample data *)

Section Scenarios.
Import Sample.
Local Open Scope Z_scope.

(** The scenarios of the specification. *)

Example amounts_of_thousand :
  amounts 1000 = [0; 100; 200; 300; 400; 500; 600; 700; 800; 900; 1000].
Proof. reflexivity. Qed.

Example three_hops_become_one :
  fixRoute (curve := config) [hopDaiUsdc; hopUsdcUsdt; hopUsdtWeth] =
    Some [hopDaiUsdtWeth].
Proof. reflexivity. Qed.

Example other_family_is_not_merged :
  fixRoute (curve := config) [hopDaiUsdt; hopUniswap] =
    Some [hopDaiUsdt; hopUniswap].
Proof. reflexivity. Qed.

Example boundary_mismatch_is_not_merged :
  fixRoute (curve := config) [hopDaiUsdc; hopUsdtWeth] =
    Some [hopDaiUsdc; hopUsdtWeth].
Proof. reflexivity. Qed.

Example separated_hops_are_not_merged :
  fixRoute (curve := config) [hopDaiUsdc; hopUniswap; hopUsdcUsdt] =
    Some [hopDaiUsdc; hopUniswap; hopUsdcUsdt].
Proof. reflexivity. Qed.

Example merge_after_other_venue :
  fixRoute (curve := config) [hopUniswap; hopDaiUsdc; hopUsdcUsdt] =
    Some [hopUniswap; hopDaiUsdt].
Proof. reflexivity. Qed.

Example earliest_proposal_wins :
  BuildParams.deadline <$>
    (match buildParams (this := sdk) clock "1b9d6bcd" 
             (routeOver ["UniswapV3"; "Hashflow"; "SwaapV2"]) 3 user with
     | Ok params => Some params
     | Throw _ => None
     end) = Some "1700000300".
Proof. reflexivity. Qed.

(** What the merger does outside the conditions of the merge theorem. *)

Example absent_pool_addresses_throw :
  fixRoute (curve := config)
    [hopDaiUsdc;
     hop USDC USDT
       (SwapExchange.mk "CurveV1Factory" "999" "998" 100
          (Data.mk [leg USDC USDT] "0.2" "") None)] = None.
Proof. reflexivity. Qed.

Example empty_path_throws :
  fixRoute (curve := config)
    [hopDaiUsdc;
     hop USDC USDT (exchangeOn "CurveV1Factory" "999" "998" [] "0.2" [pool2])] =
    None.
Proof. reflexivity. Qed.

Example gas_cost_texts :
  JS.toFixed6 (JS.add (JS.parseFloat "0.1") (JS.parseFloat "0.2")) = "0.300000" ∧
  JS.toFixed6 (JS.add (JS.parseFloat "abc") (JS.parseFloat "0.2")) = "NaN" ∧
  JS.toFixed6 (JS.add (JS.parseFloat "1e21") (JS.parseFloat "0")) = "1e+21" ∧
  JS.toFixed6 (JS.add (JS.parseFloat "0.0078125") (JS.parseFloat "0")) = "0.007813" ∧
  JS.toFixed6 (JS.add (JS.parseFloat "0.0000005") (JS.parseFloat "0")) = "0.000000".
Proof. repeat split; reflexivity. Qed.

(** The theorems at the samples. *)

Lemma merge_two_hops_witness :
  ∃ m me,
    fixRoute_step (curve := config)
      {| optimizedRate := [hopUniswap; hopDaiUsdc]; lastExchange := Some 1%nat |}
      hopUsdcUsdt =
      Some {| optimizedRate := <[1%nat := m]> [hopUniswap; hopDaiUsdc];
              lastExchange := Some 1%nat |} ∧
    <[1%nat := m]> [hopUniswap; hopDaiUsdc] !! 1%nat = Some m ∧
    <[1%nat := m]> [hopUniswap; hopDaiUsdc] !! 0%nat = Some hopUniswap ∧
    fixRoute (curve := config) ([hopUniswap; hopDaiUsdc] ++ [hopUsdcUsdt]) =
      Some (<[1%nat := m]> [hopUniswap; hopDaiUsdc]) ∧
    (∀ or',
       curveV1Merge (curve := config)
         (rateOf V6 ([hopUniswap; hopDaiUsdc] ++ [hopUsdcUsdt])) = Some or' →
       Rate.bestRoute or' !! 0%nat =
         Some (Route.mk 100 (<[1%nat := m]> [hopUniswap; hopDaiUsdc]))) ∧
    Swap.swapExchanges m = [me] ∧
    Data.gasUSD (SwapExchange.data me) = "0.300000" ∧
    Data.path (SwapExchange.data me) =
      [leg DAI USDC; leg (JS.toLowerCase USDC) USDT] ∧
    SwapExchange.poolAddresses me = Some [Some pool1; Some pool2] ∧
    Swap.destToken m = USDT ∧
    SwapExchange.destAmount me = "998".
Proof.
  destruct (merge_two_hops (curve := config)
              {| optimizedRate := [hopUniswap; hopDaiUsdc];
                 lastExchange := Some 1%nat |}
              hopUsdcUsdt 1%nat hopDaiUsdc seDaiUsdc [] seUsdcUsdt
              (leg DAI USDC) (leg (JS.toLowerCase USDC) USDT) []
              [Some pool1] [Some pool2]
              eq_refl eq_refl eq_refl eq_refl eq_refl eq_refl eq_refl eq_refl
              eq_refl eq_refl)
    as (m & me & Hstep & Hat & _ & Hother & Hpre & Hme & Hgas & Hpath & _ &
        Hpools & Hdest & _ & Hamount & _).
  destruct (Hpre [hopUniswap; hopDaiUsdc] eq_refl) as (Hfix & _ & Hrate).
  exists m, me.
  split; [exact Hstep|]. split; [exact Hat|].
  split; [exact (Hother 0%nat (Nat.neq_0_succ 0))|].
  split; [exact Hfix|].
  split.
  { intros or'.
    exact (Hrate (rateOf V6 ([hopUniswap; hopDaiUsdc] ++ [hopUsdcUsdt])) 0%nat
             (Route.mk 100 ([hopUniswap; hopDaiUsdc] ++ [hopUsdcUsdt])) or'
             eq_refl eq_refl eq_refl). }
  repeat split;
    first [exact Hme|exact Hgas|exact Hpath|exact Hpools|exact Hdest|exact Hamount].
Defined.

(** C1 as the specification states it fails on a second hop whose path has
    two legs and on gas costs with more than six fractional digits: the
    merged path lacks the second leg of the second hop, and the gas cost is
    2 millionths where the exact sum rounds to 1 millionth. *)
Lemma merge_two_hops_counterexample :
  Rate.version (rateOf V6 [hopDaiUsdcCheap; hopUsdcWeth]) = V6 ∧
  mergeable (curve := config) hopDaiUsdcCheap = true ∧
  mergeable (curve := config) hopUsdcWeth = true ∧
  boundary hopDaiUsdcCheap hopUsdcWeth = Some true ∧
  curveV1Merge (curve := config) (rateOf V6 [hopDaiUsdcCheap; hopUsdcWeth]) =
    Some (rateOf V6 [hopDaiWeth]) ∧
  Data.path (SwapExchange.data seDaiWeth) ≠
    Data.path (SwapExchange.data seDaiUsdcCheap) ++
    Data.path (SwapExchange.data seUsdcWeth) ∧
  decimalSum6 (Data.gasUSD (SwapExchange.data seDaiUsdcCheap))
              (Data.gasUSD (SwapExchange.data seUsdcWeth)) = Some "0.000001" ∧
  Data.gasUSD (SwapExchange.data seDaiWeth) = "0.000002".
Proof. repeat split; try reflexivity. discriminate. Qed.

Lemma curveV1Merge_frame_witness :
  curveV1Merge (curve := config) (rateOf V6 [hopDaiUsdc; hopUsdcUsdt]) =
    Some (rateOf V6 [hopDaiUsdt]) ∧
  Rate.srcAmount (rateOf V6 [hopDaiUsdt]) = "1000" ∧
  Rate.destAmount (rateOf V6 [hopDaiUsdt]) = "3" ∧
  length (Rate.bestRoute (rateOf V6 [hopDaiUsdt])) = 1%nat.
Proof.
  split; [reflexivity|].
  destruct (curveV1Merge_frame (curve := config)
              (rateOf V6 [hopDaiUsdc; hopUsdcUsdt]) (rateOf V6 [hopDaiUsdt]))
    as (_ & Hsrc & Hdest & Hlen & _); [reflexivity|].
  repeat split; first [exact Hsrc|exact Hdest|exact Hlen].
Defined.

Lemma curveV1Merge_other_version_witness :
  Rate.version (rateOf V5 [hopDaiUsdc; hopUsdcUsdt]) ≠ V6 ∧
  curveV1Merge (curve := config) (rateOf V5 [hopDaiUsdc; hopUsdcUsdt]) =
    Some (rateOf V5 [hopDaiUsdc; hopUsdcUsdt]).
Proof.
  split; [discriminate|].
  apply (curveV1Merge_other_version (curve := config)). discriminate.
Defined.

Lemma fuse_takes_first_leg_and_pool_witness :
  ∃ le' le0',
    fixRoute_step (curve := config)
      {| optimizedRate := [hopDaiUsdcCheap]; lastExchange := Some 0%nat |}
      hopUsdcWeth =
      Some {| optimizedRate := <[0%nat := le']> [hopDaiUsdcCheap];
              lastExchange := Some 0%nat |} ∧
    length (<[0%nat := le']> [hopDaiUsdcCheap]) = length [hopDaiUsdcCheap] ∧
    Swap.swapExchanges le' = le0' :: [] ∧
    Data.path (SwapExchange.data le0') = [leg DAI USDC] ++ [leg USDC USDT] ∧
    SwapExchange.poolAddresses le0' = Some ([Some pool1] ++ [Some pool2]).
Proof.
  apply (fuse_takes_first_leg_and_pool (curve := config)
           {| optimizedRate := [hopDaiUsdcCheap]; lastExchange := Some 0%nat |}
           hopUsdcWeth 0%nat hopDaiUsdcCheap seDaiUsdcCheap [] seUsdcWeth
           (leg USDC USDT) [leg USDT WETH]
           [Some pool1] (Some pool2) [Some pool3]);
    reflexivity.
Defined.

Lemma amounts_samples_witness :
  0 ≤ 1005 ∧
  length (amounts 1005) = 11%nat ∧
  amounts 1005 !! 0%nat = Some 0 ∧
  amounts 1005 !! 10%nat = Some 1005.
Proof.
  split; [lia|].
  destruct (amounts_samples 1005) as (Hlen & _ & Hfirst & Hlast & _); [lia|].
  repeat split; first [exact Hlen|exact Hfirst|exact Hlast].
Defined.

Lemma getPrices_first_quote_witness :
  ∃ rate,
    getPrices (this := sdk) {| address := USDT; decimals := 6 |}
      {| address := WETH; decimals := 18 |} 1000 BUY "swapExactAmountOut"
      None None =
      Ok (OptimalRate.mk rate "0" "0" "0" "swapExactAmountOut" 0) ∧
    Rate.srcAmount rate = "3" ∧
    Rate.destAmount rate = "1000".
Proof.
  destruct (getPrices_first_quote (this := sdk)
              {| address := USDT; decimals := 6 |}
              {| address := WETH; decimals := 18 |} 1000 BUY
              "swapExactAmountOut" None None [] quote [] 3)
    as (srcAmount & destAmount & -> & -> & rate & Hget & Hsrc & Hdest & _);
    try reflexivity.
  exists rate. repeat split; first [exact Hget|exact Hsrc|exact Hdest].
Defined.

Lemma buildParams_deadline_witness :
  ∃ params,
    buildParams (this := sdk) clock "1b9d6bcd" (routeOver ["Hashflow"]) 3 user =
      Ok params ∧
    BuildParams.deadline params = "1700000300".
Proof.
  destruct (buildParams (this := sdk) clock "1b9d6bcd" (routeOver ["Hashflow"])
              3 user) as [params|e] eqn:Hbuild; [|discriminate Hbuild].
  exists params. split; [reflexivity|].
  destruct (buildParams_deadline (this := sdk) _ _ _ _ _ _ Hbuild)
    as (final & -> & -> & _).
  reflexivity.
Defined.

(** C7 as the specification states it fails when a venue proposes the
    deadline [0n]: the payload keeps the initial deadline, which is not at
    most 0. *)
Lemma buildParams_deadline_counterexample :
  ∃ params,
    buildParams (this := sdk) clock "1b9d6bcd" (routeOver ["SwaapV2"]) 3 user =
      Ok params ∧
    venueAnswer (this := sdk) (routeOver ["SwaapV2"]) 3 user
      0 (hopOver ["SwaapV2"]) 0 (seOn "SwaapV2") =
      Some (Ok (seOn "SwaapV2", {| txDeadline := Some 0 |})) ∧
    BuildParams.deadline params = integerToString 1700000600 ∧
    ¬ (1700000600 ≤ 0).
Proof. eexists. repeat split; [reflexivity..|lia]. Qed.


Lemma falsy_deadline_is_ignored_witness :
  preprocessExchange (this := sdk) (routeOver ["SwaapV2"]) 3 user
    (slippageOf (routeOver ["SwaapV2"]) 3)
    0 (hopOver ["SwaapV2"]) 0 (seOn "SwaapV2") 1700000600 =
    Ok (seOn "SwaapV2", 1700000600) ∧
  ∃ params,
    buildParams (this := sdk) clock "1b9d6bcd"
      (routeOver ["SwaapV2"; "UniswapV3"]) 3 user = Ok params ∧
    BuildParams.deadline params = integerToString (initialDeadline clock).
Proof.
  destruct (falsy_deadline_is_ignored (this := sdk)) as [Hstep Hall].
  split.
  - destruct (Hstep (routeOver ["SwaapV2"]) 3 user 0%nat (hopOver ["SwaapV2"])
                0%nat (seOn "SwaapV2") (seOn "SwaapV2")
                {| txDeadline := Some 0 |} 1700000600)
      as (d' & Hrun & _ & Hzero & _); [reflexivity|].
    rewrite Hrun. by rewrite (Hzero eq_refl).
  - destruct (buildParams (this := sdk) clock "1b9d6bcd"
                (routeOver ["SwaapV2"; "UniswapV3"]) 3 user)
      as [params|e] eqn:Hbuild; [|discriminate Hbuild].
    exists params. split; [reflexivity|].
    apply (Hall _ _ _ _ _ _ Hbuild).
    intros routeIndex route swapIndex swap se se' txInfo Hroute Hswap Hse.
    destruct routeIndex as [|[|]]; try discriminate Hroute.
    injection Hroute as <-.
    destruct swapIndex as [|[|]]; try discriminate Hswap.
    injection Hswap as <-.
    apply elem_of_cons in Hse as [->|Hse];
      [|apply elem_of_cons in Hse as [->|Hse]; [|by apply elem_of_nil in Hse]];
      vm_compute; intros [= _ <-]; auto.
Defined.

End Scenarios.

(** ** Further properties of the route merger *)

Section MoreMergeProperties.
Context {curve : CurveConfig}.



(** X2.  In the output of [fixRoute] no two neighbours can be merged, and
    the sequences in which no two neighbours can be merged are exactly those
    that [fixRoute] returns as they are. *)
Theorem fixRoute_settled rawRate hops :
  (fixRoute rawRate = Some hops → settled hops) ∧
  (fixRoute hops = Some hops ↔ settled hops).
Proof.
  assert (∀ raw out, fixRoute raw = Some out → settled out) as Hsettled.
  { intros raw out. unfold fixRoute.
    destruct (forEach _ _ raw) as [st|] eqn:Hrun; simpl; [|done].
    intros [= <-]. by apply forEach_inv in Hrun as [Hs _]. }
  split; [apply Hsettled|]. split; [apply Hsettled|].
  intros Hs. unfold fixRoute. by rewrite forEach_settled.
Qed.

Lemma settled_unmergeable hops :
  Forall (λ s, mergeable s = false) hops → settled hops.
Proof.
  intros Hall i a b Ha _ Hma _.
  rewrite Forall_lookup in Hall. by rewrite (Hall _ _ Ha) in Hma.
Qed.

(** X3.  A rate none of whose hops can take part in a merge comes back
    from the merger as it is, whatever its version; the merger does not
    throw on it. *)
Theorem curveV1Merge_without_family or :
  Forall (λ r, Forall (λ s, mergeable s = false) (Route.swaps r))
         (Rate.bestRoute or) →
  curveV1Merge or = Some or.
Proof.
  intros Hall. unfold curveV1Merge. case_decide; [done|].
  assert (mapM fixRouteOf (Rate.bestRoute or) = Some (Rate.bestRoute or)) as ->.
  { apply mapM_Some, Forall2_same_length_lookup_2; [done|].
    intros i r r' Hr Hr'. rewrite Hr in Hr'. injection Hr' as <-.
    rewrite Forall_lookup in Hall. unfold fixRouteOf, fixRoute.
    rewrite forEach_settled by (by eapply settled_unmergeable, Hall).
    simpl. by destruct r. }
  simpl. by destruct or.
Qed.


(** What one call of the callback does to the output, when [lastExchange]
    is as the invariant has it: it appends the hop, or it replaces the last
    hop of the output by that hop fused with the new one. *)
Lemma step_shape st s st' :
  merge_inv st → fixRoute_step st s = Some st' →
  optimizedRate st' = optimizedRate st ++ [s] ∨
  ∃ pre a a0 pools se leg spools,
    optimizedRate st = pre ++ [a] ∧
    mergeable a = true ∧ mergeable s = true ∧
    head (Swap.swapExchanges a) = Some a0 ∧
    Swap.swapExchanges s = [se] ∧
    boundary a s = Some true ∧
    optimizedRate st' = pre ++ [fuse a a0 pools s se leg spools].
Proof.
  intros [Hs Hp] Hstep. destruct (mergeable s) eqn:Hm.
  - destruct (lastExchange st) as [ref|] eqn:Hl.
    + symmetry in Hp. destruct (pendingOf_Some _ _ Hp) as (pre & a & Hout & -> & Ha).
      assert (optimizedRate st !! length pre = Some a) as Hlook.
      { by rewrite Hout, lookup_app_r, Nat.sub_diag by lia. }
      rewrite (step_pending _ _ _ _ Hm Hl Hlook) in Hstep.
      destruct (boundary a s) as [[]|] eqn:Hb; simpl in Hstep; [| |done].
      * destruct (head (Swap.swapExchanges a)) as [a0|] eqn:Ha0; simpl in Hstep; [|done].
        destruct (mergeable_single _ Hm) as [se Hse]. rewrite Hse in Hstep; simpl in Hstep.
        destruct (head (Data.path _)) as [leg|]; simpl in Hstep; [|done].
        destruct (SwapExchange.poolAddresses a0) as [pools|]; simpl in Hstep; [|done].
        destruct (SwapExchange.poolAddresses se) as [spools|]; simpl in Hstep; [|done].
        injection Hstep as <-; simpl. right.
        exists pre, a, a0, pools, se, leg, spools.
        rewrite Hout, insert_snoc. by repeat split.
      * injection Hstep as <-. by left.
    + rewrite (step_start _ _ Hm Hl) in Hstep. injection Hstep as <-. by left.
  - rewrite (step_unmergeable _ _ Hm) in Hstep. injection Hstep as <-. by left.
Qed.

(** A relation between lists of hops that holds between a list and itself,
    composes, and holds when two neighbours are replaced by their fusion,
    holds between the input of the merger and its output. *)
Lemma forEach_related (P : list Swap.t → list Swap.t → Prop) :
  (∀ l, P l l) →
  (∀ l1 l2 l3, P l1 l2 → P l2 l3 → P l1 l3) →
  (∀ pre a a0 pools s se leg spools l,
     mergeable a = true → mergeable s = true →
     head (Swap.swapExchanges a) = Some a0 →
     Swap.swapExchanges s = [se] →
     P (pre ++ a :: s :: l) (pre ++ fuse a a0 pools s se leg spools :: l)) →
  ∀ l st st',
    merge_inv st → forEach fixRoute_step st l = Some st' →
    P (optimizedRate st ++ l) (optimizedRate st').
Proof.
  intros Hrefl Htrans Hfuse l.
  induction l as [|s l IH]; intros st st' Hinv; simpl.
  - intros [= <-]. rewrite app_nil_r. apply Hrefl.
  - destruct (fixRoute_step st s) as [st1|] eqn:Hstep; simpl; [|done].
    intros Hrun. eapply Htrans; [|eapply IH; [by eapply step_inv|done]].
    destruct (step_shape _ _ _ Hinv Hstep)
      as [->|(pre & a & a0 & pools & se & leg & spools & -> & Ha & Hm & Ha0 & Hse & _ & ->)].
    + rewrite <-app_assoc. apply Hrefl.
    + rewrite <-!app_assoc; simpl. by apply Hfuse.
Qed.

Lemma fixRoute_related (P : list Swap.t → list Swap.t → Prop) rawRate hops :
  (∀ l, P l l) →
  (∀ l1 l2 l3, P l1 l2 → P l2 l3 → P l1 l3) →
  (∀ pre a a0 pools s se leg spools l,
     mergeable a = true → mergeable s = true →
     head (Swap.swapExchanges a) = Some a0 →
     Swap.swapExchanges s = [se] →
     P (pre ++ a :: s :: l) (pre ++ fuse a a0 pools s se leg spools :: l)) →
  fixRoute rawRate = Some hops → P rawRate hops.
Proof.
  intros Hrefl Htrans Hfuse. unfold fixRoute.
  destruct (forEach _ _ rawRate) as [st|] eqn:Hrun; simpl; [|done].
  intros [= <-].
  by apply (forEach_related P Hrefl Htrans Hfuse) in Hrun.
Qed.

(** X4.  The hops that cannot take part in a merge are in the output of
    [fixRoute] as they are in its input: the same hops, in the same
    order. *)
Theorem fixRoute_keeps_other_hops rawRate hops :
  fixRoute rawRate = Some hops →
  filter (λ s, mergeable s = false) hops =
  filter (λ s, mergeable s = false) rawRate.
Proof.
  intros Hfix. symmetry. revert Hfix.
  apply (fixRoute_related
           (λ l1 l2, filter (λ s, mergeable s = false) l1 =
                     filter (λ s, mergeable s = false) l2)).
  - done.
  - intros l1 l2 l3. congruence.
  - intros pre a a0 pools s se leg spools l Ha Hs Ha0 Hse.
    rewrite !filter_app, !filter_cons.
    rewrite (mergeable_fuse _ _ pools s se leg spools Ha Ha0), Ha, Hs.
    by repeat case_decide.
Qed.

Lemma hopSource_fuse a a0 pools s se leg spools :
  head (Swap.swapExchanges a) = Some a0 →
  hopSource (fuse a a0 pools s se leg spools) = hopSource a.
Proof. unfold hopSource; simpl. by intros ->. Qed.

Lemma hopDestination_fuse a a0 pools s se leg spools :
  Swap.swapExchanges s = [se] →
  hopDestination (fuse a a0 pools s se leg spools) = hopDestination s.
Proof. unfold hopDestination; simpl. by intros ->. Qed.

(** X5.  [fixRoute] keeps the ends of a route: the source token, its
    decimals and the source amount of the first hop, and the destination
    token, its decimals and the destination amount of the last hop.  Its
    output is empty only for an empty input. *)
Theorem fixRoute_endpoints rawRate hops :
  fixRoute rawRate = Some hops →
  hopSource <$> head hops = hopSource <$> head rawRate ∧
  hopDestination <$> last hops = hopDestination <$> last rawRate ∧
  (hops = [] ↔ rawRate = []).
Proof.
  intros Hfix.
  assert (hopSource <$> head rawRate = hopSource <$> head hops ∧
          hopDestination <$> last rawRate = hopDestination <$> last hops ∧
          (rawRate = [] ↔ hops = [])) as (? & ? & ?); [|done].
  revert Hfix.
  apply (fixRoute_related
           (λ l1 l2, hopSource <$> head l1 = hopSource <$> head l2 ∧
                     hopDestination <$> last l1 = hopDestination <$> last l2 ∧
                     (l1 = [] ↔ l2 = []))).
  - done.
  - intros l1 l2 l3 (-> & -> & ->) (-> & -> & ->). done.
  - intros pre a a0 pools s se leg spools l Ha Hs Ha0 Hse. split; [|split].
    + destruct pre; simpl; [|done]. by rewrite hopSource_fuse.
    + rewrite !last_app; simpl.
      destruct l as [|x l]; [|by rewrite !last_cons_cons].
      simpl. by rewrite hopDestination_fuse.
    + by destruct pre.
Qed.

Lemma chained_fuse pre a a' s l :
  Swap.srcToken a' = Swap.srcToken a →
  Swap.destToken a' = Swap.destToken s →
  chained (pre ++ a :: s :: l) → chained (pre ++ a' :: l).
Proof.
  intros Hsrc Hdest. induction pre as [|p [|q pre] IH]; simpl.
  - intros [_ Hl]. destruct l; [done|]. destruct Hl as [Hl ?]. split; [congruence|done].
  - intros [Hp [_ Hl]]. split; [congruence|].
    destruct l; [done|]. destruct Hl as [Hl ?]. split; [congruence|done].
  - intros [Hp Hq]. split; [done|]. by apply IH.
Qed.

(** X6.  [fixRoute] keeps sequential composition: when every hop of the
    input starts at the token at which the hop before it ends, so does
    every hop of the output. *)
Theorem fixRoute_chained rawRate hops :
  fixRoute rawRate = Some hops → chained rawRate → chained hops.
Proof.
  apply (fixRoute_related (λ l1 l2, chained l1 → chained l2)).
  - done.
  - intros l1 l2 l3. auto.
  - intros pre a a0 pools s se leg spools l _ _ _ _. by apply chained_fuse.
Qed.


Lemma forEach_absorb pre a a0 pools lastLeg hs :
  Swap.swapExchanges a = [a0] →
  last (Data.path (SwapExchange.data a0)) = Some lastLeg →
  SwapExchange.poolAddresses a0 = Some pools →
  absorbable (Leg.tokenOut lastLeg) hs →
  ∃ m me,
    forEach fixRoute_step
      {| optimizedRate := pre ++ [a]; lastExchange := Some (length pre) |} hs =
      Some {| optimizedRate := pre ++ [m]; lastExchange := Some (length pre) |} ∧
    Swap.swapExchanges m = [me] ∧
    Data.path (SwapExchange.data me) =
      Data.path (SwapExchange.data a0) ++ omap firstLeg hs ∧
    SwapExchange.poolAddresses me = Some (pools ++ (firstPool <$> hs)) ∧
    Data.gasUSD (SwapExchange.data me) =
      absorbedGas (Data.gasUSD (SwapExchange.data a0)) hs ∧
    hopSource m = hopSource a ∧
    hopDestination m = default (hopDestination a) (hopDestination <$> last hs) ∧
    SwapExchange.exchange me = SwapExchange.exchange a0 ∧
    SwapExchange.percent me = SwapExchange.percent a0 ∧
    Data.rest (SwapExchange.data me) = Data.rest (SwapExchange.data a0).
Proof.
  revert a a0 pools lastLeg.
  induction hs as [|h hs IH]; intros a a0 pools lastLeg Ha0 Hlast Hpools Habs.
  - exists a, a0. simpl. rewrite !app_nil_r. by repeat split.
  - destruct Habs as (Hm & se & leg & Hse & Hleg & [spools Hspools] & Htok & Habs).
    destruct (mergeable_single _ Hm) as [se' Hse'].
    rewrite Hse' in Hse. injection Hse as ->.
    destruct (Data.path (SwapExchange.data se)) as [|leg' legs] eqn:Hpath;
      [done|]. injection Hleg as ->.
    simpl.
    assert (fixRoute_step
              {| optimizedRate := pre ++ [a]; lastExchange := Some (length pre) |} h =
            Some {| optimizedRate :=
                      <[length pre := fuse a a0 pools h se leg spools]> (pre ++ [a]);
                    lastExchange := Some (length pre) |}) as ->.
    { apply (step_fuse
               {| optimizedRate := pre ++ [a]; lastExchange := Some (length pre) |}
               h (length pre) a a0 [] se leg legs pools spools).
      - done.
      - simpl. by rewrite lookup_app_r, Nat.sub_diag by lia.
      - done.
      - done.
      - unfold mergeable in Hm. by rewrite Hse' in Hm.
      - done.
      - unfold boundary. rewrite Ha0, Hse'; simpl. rewrite Hlast, Hpath; simpl.
        by rewrite Htok, String.eqb_refl.
      - done.
      - done. }
    simpl. rewrite insert_snoc.
    destruct (IH (fuse a a0 pools h se leg spools)
                 (SwapExchange.mk (SwapExchange.exchange a0)
                    (SwapExchange.srcAmount a0) (SwapExchange.destAmount se)
                    (SwapExchange.percent a0)
                    (Data.mk (Data.path (SwapExchange.data a0) ++ [leg])
                       (JS.toFixed6
                          (JS.add (JS.parseFloat (Data.gasUSD (SwapExchange.data a0)))
                                  (JS.parseFloat (Data.gasUSD (SwapExchange.data se)))))
                       (Data.rest (SwapExchange.data a0)))
                    (Some (pools ++ [mjoin (spools !! 0)])))
                 (pools ++ [mjoin (spools !! 0)]) leg)
      as (m & me & Hrun & Hme & Hp & Hpl & Hgas & Hsrc & Hdst & Hex & Hpc & Hrest);
      [by unfold fuse; simpl; rewrite Ha0 | by simpl; rewrite last_snoc | done | done |].
    exists m, me. split; [done|]. split; [done|].
    simpl in Hp, Hpl, Hgas, Hex, Hpc, Hrest.
    split; [|split; [|split; [|split; [|split]]]].
    + rewrite Hp, <-app_assoc. unfold firstLeg at 2. rewrite Hse'; simpl.
      by rewrite Hpath.
    + rewrite Hpl, <-app_assoc. unfold firstPool at 2. rewrite Hse'; simpl.
      by rewrite Hspools.
    + rewrite Hgas. unfold absorbedGas; simpl. by rewrite Hse'.
    + rewrite Hsrc. apply hopSource_fuse. by rewrite Ha0.
    + rewrite Hdst, hopDestination_fuse by done.
      destruct hs as [|h' hs]; [reflexivity|]. rewrite last_cons_cons.
      destruct (last (h' :: hs)) eqn:Hl; [done|by apply last_None in Hl].
    + by rewrite Hex, Hpc, Hrest.
Qed.

(** X7.  A run of hops that the first of them absorbs one after the other
    becomes one hop.  Its path is the path of the first hop followed by the
    first legs of the others, its pool addresses are those of the first hop
    followed by the first pool address of each of the others, its gas cost
    adds theirs one by one, it starts where the first hop starts and ends
    where the last hop ends. *)
Theorem fixRoute_run h0 se0 lastLeg pools0 hs :
  mergeable h0 = true →
  Swap.swapExchanges h0 = [se0] →
  last (Data.path (SwapExchange.data se0)) = Some lastLeg →
  SwapExchange.poolAddresses se0 = Some pools0 →
  absorbable (Leg.tokenOut lastLeg) hs →
  ∃ m me,
    fixRoute (h0 :: hs) = Some [m] ∧
    Swap.swapExchanges m = [me] ∧
    Data.path (SwapExchange.data me) =
      Data.path (SwapExchange.data se0) ++ omap firstLeg hs ∧
    SwapExchange.poolAddresses me = Some (pools0 ++ (firstPool <$> hs)) ∧
    Data.gasUSD (SwapExchange.data me) =
      absorbedGas (Data.gasUSD (SwapExchange.data se0)) hs ∧
    hopSource m = hopSource h0 ∧
    hopDestination m = default (hopDestination h0) (hopDestination <$> last hs).
Proof.
  intros Hm Hse0 Hlast Hpools Habs.
  destruct (forEach_absorb [] h0 se0 pools0 lastLeg hs Hse0 Hlast Hpools Habs)
    as (m & me & Hrun & Hme & Hp & Hpl & Hgas & Hsrc & Hdst & _).
  exists m, me. split; [|done].
  unfold fixRoute; simpl. rewrite step_start by done; simpl.
  simpl in Hrun. by rewrite Hrun.
Qed.

Lemma boundary_None h1 h2 se1 se2 :
  Swap.swapExchanges h1 = [se1] → Swap.swapExchanges h2 = [se2] →
  boundary h1 h2 = None ↔
  Data.path (SwapExchange.data se1) = [] ∨ Data.path (SwapExchange.data se2) = [].
Proof.
  intros Hse1 Hse2. unfold boundary. rewrite Hse1, Hse2; simpl.
  destruct (Data.path (SwapExchange.data se1)) as [|l1 p1] using rev_ind.
  { split; [by left|done]. }
  rewrite last_snoc; simpl.
  destruct (Data.path (SwapExchange.data se2)) as [|l2 p2]; simpl.
  - split; [by right|done].
  - split; [done|]. intros [Hp|Hp]; [|done]. by apply app_nil in Hp as [_ ?].
Qed.

(** X8.  On two hops that can both take part in a merge [fixRoute] throws
    exactly when a path is empty, or the boundary tokens match and a pool
    address array is absent; when the boundary tokens differ it returns the
    two hops as they are. *)
Theorem fixRoute_pair_throws h1 h2 se1 se2 :
  mergeable h1 = true → mergeable h2 = true →
  Swap.swapExchanges h1 = [se1] → Swap.swapExchanges h2 = [se2] →
  (fixRoute [h1; h2] = None ↔
   Data.path (SwapExchange.data se1) = [] ∨
   Data.path (SwapExchange.data se2) = [] ∨
   (boundary h1 h2 = Some true ∧
    (SwapExchange.poolAddresses se1 = None ∨
     SwapExchange.poolAddresses se2 = None))) ∧
  (boundary h1 h2 = Some false → fixRoute [h1; h2] = Some [h1; h2]).
Proof.
  intros Hm1 Hm2 Hse1 Hse2.
  assert (fixRoute [h1; h2] =
          optimizedRate <$>
            fixRoute_step {| optimizedRate := [h1]; lastExchange := Some 0 |} h2)
    as ->.
  { unfold fixRoute; simpl. rewrite step_start by done; simpl.
    by destruct (fixRoute_step _ h2). }
  rewrite (step_pending _ h2 0 h1) by done.
  pose proof (boundary_None h1 h2 se1 se2 Hse1 Hse2) as Hnone.
  destruct (boundary h1 h2) as [[]|] eqn:Hb; simpl.
  - split; [|done]. rewrite Hse1, Hse2; simpl.
    assert (Data.path (SwapExchange.data se1) ≠ [] ∧
            Data.path (SwapExchange.data se2) ≠ []) as [Hp1 Hp2].
    { destruct Hnone as [_ Hn].
      split; intros Hp;
        [by specialize (Hn (or_introl Hp))|by specialize (Hn (or_intror Hp))]. }
    destruct (Data.path (SwapExchange.data se2)) as [|leg legs]; [done|]; simpl.
    destruct (SwapExchange.poolAddresses se1) as [pools|]; simpl;
      [|split; [intros _; right; right; auto|done]].
    destruct (SwapExchange.poolAddresses se2) as [spools|]; simpl.
    + split; [done|]. by intros [?|[?|[_ [?|?]]]].
    + split; [intros _; right; right; auto|done].
  - split; [|done]. split; [done|].
    destruct Hnone as [_ Hn].
    intros [Hp|[Hp|[? _]]]; [| |done];
      [by specialize (Hn (or_introl Hp))|by specialize (Hn (or_intror Hp))].
  - split; [|done]. split; [|done]. intros _. destruct Hnone as [Hn _].
    destruct Hn as [?|?]; auto.
Qed.

(** X9.  The merger treats the routes of a V6 rate one by one: it throws
    exactly when [fixRoute] throws on the hops of some route, and otherwise
    the route at an index of the result is made of the route at that index
    of the input alone. *)
Theorem curveV1Merge_per_route or :
  Rate.version or = V6 →
  (curveV1Merge or = None ↔
   ∃ r, r ∈ Rate.bestRoute or ∧ fixRoute (Route.swaps r) = None) ∧
  (∀ or' k,
     curveV1Merge or = Some or' →
     Rate.bestRoute or' !! k = Rate.bestRoute or !! k ≫= fixRouteOf).
Proof.
  intros HV. rewrite curveV1Merge_V6 by done. split.
  - destruct (mapM fixRouteOf (Rate.bestRoute or)) as [routes|] eqn:Hmap; simpl.
    + split; [done|]. intros (r & Hr & Hnone).
      apply mapM_Some in Hmap. apply list_elem_of_lookup in Hr as [i Hi].
      destruct (Forall2_lookup_l _ _ _ _ _ Hmap Hi) as (r' & _ & Hr').
      unfold fixRouteOf in Hr'. by rewrite Hnone in Hr'.
    + split; [|done]. intros _.
      apply mapM_None, Exists_exists in Hmap as (r & Hr & Hnone).
      exists r. split; [done|]. unfold fixRouteOf in Hnone.
      by destruct (fixRoute (Route.swaps r)).
  - intros or' k.
    destruct (mapM fixRouteOf (Rate.bestRoute or)) as [routes|] eqn:Hmap;
      simpl; [|done].
    intros [= <-]; simpl. apply mapM_Some in Hmap.
    destruct (Rate.bestRoute or !! k) as [r|] eqn:Hr; simpl.
    + by destruct (Forall2_lookup_l _ _ _ _ _ Hmap Hr) as (r' & -> & ->).
    + apply lookup_ge_None. apply lookup_ge_None in Hr.
      by rewrite <-(Forall2_length _ _ _ Hmap).
Qed.

(** X10.  The merger does not throw on a rate in which every hop that can
    take part in a merge has a path with a leg and an array of pool
    addresses. *)
Theorem curveV1Merge_does_not_throw or :
  Forall (λ r, Forall (λ s, mergeable s = true → wellFormed s) (Route.swaps r))
         (Rate.bestRoute or) →
  ∃ or', curveV1Merge or = Some or'.
Proof. apply curveV1Merge_total. Qed.

End MoreMergeProperties.

(** ** Further properties of price sampling and quote selection *)

Section MoreSamplingProperties.
Local Open Scope Z_scope.

(** X11.  bigint division truncates toward zero, so the samples of a
    negated amount are the negated samples of the amount: for a negative
    amount they are rounded up, not down. *)
Theorem amounts_opp amount : amounts (- amount) = Z.opp <$> amounts amount.
Proof.
  unfold amounts. rewrite <-list_fmap_compose. apply list_fmap_ext.
  intros _ i _; simpl. unfold chunks.
  by rewrite Z.mul_opp_l, Z.quot_opp_l.
Qed.

(** X12.  The samples of a non-negative amount are evenly spaced: two
    consecutive samples differ by a tenth of the amount, rounded down, or by
    one more. *)
Theorem amounts_spacing amount (i : nat) x y :
  0 ≤ amount →
  amounts amount !! i = Some x →
  amounts amount !! S i = Some y →
  amount / 10 ≤ y - x ≤ amount / 10 + 1.
Proof.
  intros Hamount Hx Hy.
  assert (S i ≤ 10)%nat as Hi.
  { apply lookup_lt_Some in Hy.
    unfold amounts, range, chunks in Hy. rewrite length_fmap, length_seqZ in Hy. lia. }
  rewrite amounts_lookup in Hx, Hy by lia.
  injection Hx as <-. injection Hy as <-.
  rewrite !Z.quot_div_nonneg by lia.
  replace (amount * Z.of_nat (S i)) with (amount * Z.of_nat i + amount) by lia.
  generalize (amount * Z.of_nat i). intros u.
  Z.div_mod_to_equations. lia.
Qed.

End MoreSamplingProperties.

Section MoreQuoteProperties.
Context {this : SDK}.

(** X13.  What [getPrices] returns depends on the quotes alone.  It
    throws the error that names the venue keys exactly when the pricing
    layer returns nothing or no quote, it throws a [TypeError] exactly when
    the first quote has at most ten prices, and it returns a rate exactly
    when the first quote has more than ten. *)
Theorem getPrices_outcome
    from to amount side contractMethod _poolIdentifiers transferFees poolPrices :
  poolPrices =
    getPoolPrices from to (amounts amount) side getBlockNumber dexKeys
      (default (getPoolIdentifiers from to side getBlockNumber dexKeys)
               _poolIdentifiers) transferFees →
  (poolPrices = None ∨ poolPrices = Some [] ↔
   getPrices from to amount side contractMethod _poolIdentifiers transferFees =
     Throw (NoLiquidityError dexKeys)) ∧
  ((∃ finalPrice otherPrices,
      poolPrices = Some (finalPrice :: otherPrices) ∧
      (length (PoolPrices.prices finalPrice) ≤ 10)%nat) ↔
   getPrices from to amount side contractMethod _poolIdentifiers transferFees =
     Throw TypeError) ∧
  ((∃ finalPrice otherPrices,
      poolPrices = Some (finalPrice :: otherPrices) ∧
      (10 < length (PoolPrices.prices finalPrice))%nat) ↔
   ∃ rate,
     getPrices from to amount side contractMethod _poolIdentifiers transferFees =
       Ok rate).
Proof.
  intros ->. unfold getPrices.
  replace (match _poolIdentifiers with
           | Some ids => ids
           | None => getPoolIdentifiers from to side getBlockNumber dexKeys
           end)
    with (default (getPoolIdentifiers from to side getBlockNumber dexKeys)
                  _poolIdentifiers) by (by destruct _poolIdentifiers).
  destruct (getPoolPrices _ _ _ _ _ _ _ _) as [[|finalPrice otherPrices]|].
  - split; [split; [done|by right]|]. split.
    + split; [by intros (? & ? & ? & _)|done].
    + split; [by intros (? & ? & ? & _)|by intros [? ?]].
  - change (Z.to_nat chunks) with 10%nat.
    destruct (PoolPrices.prices finalPrice !! 10%nat) as [quoteAmount|] eqn:Hq.
    + pose proof (lookup_lt_Some _ _ _ Hq) as Hlen.
      split; [split; [by intros [?|?]|done]|]. split.
      * split; [|done]. intros (? & ? & [= <- <-] & ?). lia.
      * split; [by eexists|]. intros _. by exists finalPrice, otherPrices.
    + pose proof (proj1 (lookup_ge_None _ _) Hq) as Hlen.
      split; [split; [by intros [?|?]|done]|]. split.
      * split; [done|]. intros _. by exists finalPrice, otherPrices.
      * split; [|by intros [? ?]]. intros (? & ? & [= <- <-] & ?). lia.
  - split; [split; [done|by left]|]. split.
    + split; [by intros (? & ? & ? & _)|done].
    + split; [by intros (? & ? & ? & _)|by intros [? ?]].
Qed.

End MoreQuoteProperties.

(** ** Further properties of the transaction assembly *)

Section MoreAssemblyMonad.

Lemma mapAll_positions {A B} (f : nat → A → Assembly B) xs i d ys d' :
  mapAll f i xs d = Ok (ys, d') →
  length ys = length xs ∧
  ∀ j x y, xs !! j = Some x → ys !! j = Some y →
           ∃ d1 d2, f (i + j)%nat x d1 = Ok (y, d2).
Proof.
  revert i d ys d'. induction xs as [|x xs IH]; intros i d ys d'; simpl.
  - intros [= <- _]. split; [done|]. by intros j x y ?.
  - unfold bind at 1. destruct (f i x d) as [[y d1]|e] eqn:Hx; [|done].
    unfold bind at 1.
    destruct (mapAll f (S i) xs d1) as [[ys' d2]|e] eqn:Hxs; [|done].
    intros [= <- _]. destruct (IH _ _ _ _ Hxs) as [Hlen Hpos].
    split; [simpl; by rewrite Hlen|].
    intros [|j] x' y'; simpl.
    + intros [= <-] [= <-]. exists d, d1. by rewrite Nat.add_0_r.
    + intros Hx' Hy'. destruct (Hpos j x' y' Hx' Hy') as (d3 & d4 & Hf).
      exists d3, d4. by replace (i + S j)%nat with (S i + j)%nat by lia.
Qed.

Lemma mapAll_unchanged {A} (f : nat → A → Assembly A) xs i d :
  (∀ j x d, f j x d = Ok (x, d)) → mapAll f i xs d = Ok (xs, d).
Proof.
  intros Hf. revert i. induction xs as [|x xs IH]; intros i; simpl; [done|].
  unfold bind at 1. rewrite Hf. unfold bind at 1. by rewrite IH.
Qed.

Lemma mapAll_folded {A B T} (step : Z → T → Z)
    (f : nat → A → Assembly B) (g : nat → A → list T) :
  (∀ i x d y d', f i x d = Ok (y, d') → d' = fold_left step (g i x) d) →
  ∀ xs i d ys d',
    mapAll f i xs d = Ok (ys, d') →
    d' = fold_left step (mjoin (imap (λ j, g (i + j)%nat) xs)) d.
Proof.
  intros Hf xs. induction xs as [|x xs IH]; intros i d ys d'; simpl.
  - by intros [= _ <-].
  - unfold bind at 1. destruct (f i x d) as [[y d1]|e] eqn:Hx; [|done].
    unfold bind at 1.
    destruct (mapAll f (S i) xs d1) as [[ys' d2]|e] eqn:Hxs; [|done].
    intros [= _ <-]. rewrite fold_left_app, Nat.add_0_r.
    rewrite <-(Hf _ _ _ _ _ Hx). rewrite (IH _ _ _ _ Hxs).
    f_equal. f_equal. apply imap_ext. intros j z _; simpl. f_equal. lia.
Qed.

End MoreAssemblyMonad.

Section MoreAssemblyProperties.
Context {this : SDK}.
Local Open Scope Z_scope.

Lemma reconcile_comm d a b :
  reconcile (reconcile d a) b = reconcile (reconcile d b) a.
Proof.
  rewrite !reconcile_cases.
  destruct (txDeadline a) as [p|], (txDeadline b) as [q|]; try done.
  repeat case_decide; lia.
Qed.

(** Reconciling in any order gives the same deadline. *)
Lemma reconcile_any_order txInfos txInfos' d :
  txInfos ≡ₚ txInfos' →
  fold_left reconcile txInfos d = fold_left reconcile txInfos' d.
Proof.
  intros Hperm. revert d.
  induction Hperm as [|t ts ts' _ IH|t t' ts|ts1 ts2 ts3 _ IH1 _ IH2];
    intros d; simpl.
  - done.
  - apply IH.
  - by rewrite reconcile_comm.
  - by rewrite IH1.
Qed.

Section Positions.
Variables (priceRoute : OptimalRate.t) (minMaxAmount : Z) (userAddress : Address).

Lemma onExchange_result routeIndex swap swapIndex i se d se' d' :
  onExchange priceRoute minMaxAmount userAddress routeIndex swap swapIndex
    i se d = Ok (se', d') →
  se' = match venueAnswer priceRoute minMaxAmount userAddress
                routeIndex swap swapIndex se with
        | Some (Ok (rewritten, _)) => rewritten
        | _ => se
        end ∧
  d' = fold_left reconcile
         (option_list
            (answeredInfo
               (venueAnswer priceRoute minMaxAmount userAddress
                  routeIndex swap swapIndex se))) d.
Proof.
  pose proof (preprocessExchange_cases priceRoute minMaxAmount userAddress
                routeIndex swap swapIndex se d) as Hcases.
  revert Hcases. unfold onExchange.
  destruct (venueAnswer _ _ _ _ _ _ _) as [[[se1 txInfo]|e]|].
  - intros ->. by intros [= <- <-].
  - by intros ->.
  - intros [->| ->]; [done|]. by intros [= <- <-].
Qed.

Lemma onExchange_Throw routeIndex swap swapIndex i se d e :
  onExchange priceRoute minMaxAmount userAddress routeIndex swap swapIndex
    i se d = Throw e →
  (e = ConfigurationError ∧
   ∃ dex, getDexByKey (SwapExchange.exchange se) = Some dex ∧
          is_Some (preProcessTransaction dex) ∧
          getTokenFromAddress dex = None) ∨
  venueAnswer priceRoute minMaxAmount userAddress routeIndex swap swapIndex se =
    Some (Throw e).
Proof.
  unfold onExchange, preprocessExchange, venueAnswer.
  destruct (getDexByKey _) as [[[pre|] [look|]]|] eqn:Hdex; simpl; try done.
  - unfold bind, await.
    match goal with
    | |- context [pre ?a ?b ?c ?d ?o] =>
        destruct (pre a b c d o) as [[se' txInfo]|e'] eqn:Hpre
    end; [done|].
    intros [= ->]. by right.
  - intros [= <-]. left. split; [done|]. eexists. by split; [|split; [eexists|]].
Qed.

Lemma assembly_reconciled d ys d' :
  mapAll (onRoute priceRoute minMaxAmount userAddress) 0%nat
    (Rate.bestRoute (OptimalRate.rate priceRoute)) d = Ok (ys, d') →
  d' = fold_left reconcile (answeredInfos priceRoute minMaxAmount userAddress) d.
Proof.
  intros Hrun.
  apply (mapAll_folded reconcile _
           (λ routeIndex route,
              mjoin (imap (λ swapIndex swap,
                       omap (λ se,
                         answeredInfo
                           (venueAnswer priceRoute minMaxAmount userAddress
                              routeIndex swap swapIndex se))
                         (Swap.swapExchanges swap))
                     (Route.swaps route)))) in Hrun; [done|].
  intros routeIndex route d1 y1 d1' (swaps & Hswaps & _)%bind_ret_Ok.
  apply (mapAll_folded reconcile _
           (λ swapIndex swap,
              omap (λ se,
                answeredInfo
                  (venueAnswer priceRoute minMaxAmount userAddress
                     routeIndex swap swapIndex se))
                (Swap.swapExchanges swap))) in Hswaps; [done|].
  intros swapIndex swap d2 y2 d2' (ses & Hses & _)%bind_ret_Ok.
  apply (mapAll_folded reconcile _
           (λ _ se,
              option_list
                (answeredInfo
                   (venueAnswer priceRoute minMaxAmount userAddress
                      routeIndex swap swapIndex se)))) in Hses.
  - by rewrite omap_join in Hses.
  - intros i se d3 se' d3' Hse. by apply onExchange_result in Hse as [_ ->].
Qed.

Lemma assembly_Throw_at d e :
  mapAll (onRoute priceRoute minMaxAmount userAddress) 0%nat
    (Rate.bestRoute (OptimalRate.rate priceRoute)) d = Throw e →
  ∃ routeIndex route swapIndex swap exchangeIndex se d',
    Rate.bestRoute (OptimalRate.rate priceRoute) !! routeIndex = Some route ∧
    Route.swaps route !! swapIndex = Some swap ∧
    Swap.swapExchanges swap !! exchangeIndex = Some se ∧
    onExchange priceRoute minMaxAmount userAddress routeIndex swap swapIndex
      exchangeIndex se d' = Throw e.
Proof.
  intros (routeIndex & route & d1 & Hr & Hroute)%mapAll_Throw_inv.
  apply bind_ret_Throw, mapAll_Throw_inv in Hroute
    as (swapIndex & swap & d2 & Hs & Hswap).
  apply bind_ret_Throw, mapAll_Throw_inv in Hswap
    as (exchangeIndex & se & d3 & He & Hse).
  by exists routeIndex, route, swapIndex, swap, exchangeIndex, se, d3.
Qed.

End Positions.

(** X14.  The deadline of the payload does not depend on the order in
    which the venues answer: reconciling the auxiliary infos of their
    answers in any order, from the initial deadline on, gives it. *)
Theorem buildParams_any_order now uuid priceRoute minMaxAmount userAddress params txInfos :
  buildParams now uuid priceRoute minMaxAmount userAddress = Ok params →
  txInfos ≡ₚ answeredInfos priceRoute minMaxAmount userAddress →
  BuildParams.deadline params =
    integerToString (fold_left reconcile txInfos (initialDeadline now)).
Proof.
  rewrite buildParams_run.
  destruct (mapAll _ _ _ _) as [[bestRoute deadline]|e] eqn:Hrun; [|done].
  intros [= <-] Hperm; simpl. apply assembly_reconciled in Hrun.
  by rewrite Hrun, (reconcile_any_order _ _ _ Hperm).
Qed.

(** X15.  The assembly keeps the shape of the rate.  The payload carries
    the rate with only [bestRoute] replaced, the amount as a decimal text,
    the user address, the null partner address, the partner fee 0 and the
    identifier.  There are as many routes, swaps and swap exchanges as
    before, each at its place, with the percent of every route and the
    tokens and decimals of every swap; and every swap exchange is the one
    its venue rewrote, or the one of the input when no request was sent for
    it. *)
Theorem buildParams_positions now uuid priceRoute minMaxAmount userAddress params :
  buildParams now uuid priceRoute minMaxAmount userAddress = Ok params →
  ∃ bestRoute,
    params =
      BuildParams.mk (OptimalRate.set_bestRoute bestRoute priceRoute)
        (JS.bigintToString minMaxAmount) userAddress NULL_ADDRESS "0"
        (BuildParams.deadline params) uuid ∧
    length bestRoute = length (Rate.bestRoute (OptimalRate.rate priceRoute)) ∧
    ∀ routeIndex route route',
      Rate.bestRoute (OptimalRate.rate priceRoute) !! routeIndex = Some route →
      bestRoute !! routeIndex = Some route' →
      Route.percent route' = Route.percent route ∧
      length (Route.swaps route') = length (Route.swaps route) ∧
      ∀ swapIndex swap swap',
        Route.swaps route !! swapIndex = Some swap →
        Route.swaps route' !! swapIndex = Some swap' →
        Swap.srcToken swap' = Swap.srcToken swap ∧
        Swap.srcDecimals swap' = Swap.srcDecimals swap ∧
        Swap.destToken swap' = Swap.destToken swap ∧
        Swap.destDecimals swap' = Swap.destDecimals swap ∧
        length (Swap.swapExchanges swap') = length (Swap.swapExchanges swap) ∧
        ∀ exchangeIndex se se',
          Swap.swapExchanges swap !! exchangeIndex = Some se →
          Swap.swapExchanges swap' !! exchangeIndex = Some se' →
          se' = match venueAnswer priceRoute minMaxAmount userAddress
                        routeIndex swap swapIndex se with
                | Some (Ok (rewritten, _)) => rewritten
                | _ => se
                end.
Proof.
  rewrite buildParams_run.
  destruct (mapAll _ _ _ _) as [[bestRoute deadline]|e] eqn:Hrun; [|done].
  intros [= <-]. exists bestRoute. split; [done|].
  apply mapAll_positions in Hrun as [Hlen Hroutes]. split; [done|].
  intros routeIndex route route' Hroute Hroute'.
  destruct (Hroutes _ _ _ Hroute Hroute')
    as (d1 & d2 & (swaps & Hswaps & ->)%bind_ret_Ok); simpl.
  apply mapAll_positions in Hswaps as [Hlen' Hswaps]. split; [done|]. split; [done|].
  intros swapIndex swap swap' Hswap Hswap'.
  destruct (Hswaps _ _ _ Hswap Hswap')
    as (d3 & d4 & (ses & Hses & ->)%bind_ret_Ok); simpl.
  apply mapAll_positions in Hses as [Hlen'' Hses]. repeat split; [done|].
  intros exchangeIndex se se' Hse Hse'.
  destruct (Hses _ _ _ Hse Hse') as (d5 & d6 & Hrun).
  by apply onExchange_result in Hrun as [-> _].
Qed.

(** X16.  The assembly is all or nothing.  When the venue of some swap
    exchange rejects the preprocessing request, [buildTransaction] fails.
    And when the assembly fails, the error is the configuration error for a
    swap exchange whose venue preprocesses without token lookup, or the
    error with which the venue of some swap exchange rejected its
    request. *)
Theorem buildTransaction_all_or_nothing now uuid priceRoute minMaxAmount userAddress :
  (∀ routeIndex route swapIndex swap exchangeIndex se e,
     Rate.bestRoute (OptimalRate.rate priceRoute) !! routeIndex = Some route →
     Route.swaps route !! swapIndex = Some swap →
     Swap.swapExchanges swap !! exchangeIndex = Some se →
     venueAnswer priceRoute minMaxAmount userAddress
       routeIndex swap swapIndex se = Some (Throw e) →
     ∃ e', buildTransaction now uuid priceRoute minMaxAmount userAddress =
             Throw e') ∧
  (∀ e,
     buildParams now uuid priceRoute minMaxAmount userAddress = Throw e →
     ∃ routeIndex route swapIndex swap exchangeIndex se,
       Rate.bestRoute (OptimalRate.rate priceRoute) !! routeIndex = Some route ∧
       Route.swaps route !! swapIndex = Some swap ∧
       Swap.swapExchanges swap !! exchangeIndex = Some se ∧
       ((e = ConfigurationError ∧
         ∃ dex, getDexByKey (SwapExchange.exchange se) = Some dex ∧
                is_Some (preProcessTransaction dex) ∧
                getTokenFromAddress dex = None) ∨
        venueAnswer priceRoute minMaxAmount userAddress
          routeIndex swap swapIndex se = Some (Throw e))).
Proof.
  split.
  - intros routeIndex route swapIndex swap exchangeIndex se e
      Hroute Hswap Hse Hanswer.
    unfold buildTransaction. rewrite buildParams_run.
    destruct (assembly_throws priceRoute minMaxAmount userAddress
                _ _ _ _ _ _ Hroute Hswap Hse) with (d := initialDeadline now)
      as [e' ->]; [|by exists e'].
    intros d. exists e.
    pose proof (preprocessExchange_cases priceRoute minMaxAmount userAddress
                  routeIndex swap swapIndex se d) as Hcases.
    rewrite Hanswer in Hcases. exact Hcases.
  - intros e. rewrite buildParams_run.
    destruct (mapAll _ _ _ _) as [[bestRoute deadline]|e'] eqn:Hrun; [done|].
    intros [= ->].
    apply assembly_Throw_at in Hrun
      as (routeIndex & route & swapIndex & swap & exchangeIndex & se & d'
          & Hroute & Hswap & Hse & Hthrow).
    exists routeIndex, route, swapIndex, swap, exchangeIndex, se.
    repeat split; [done..|]. by eapply onExchange_Throw.
Qed.

(** X17.  When no venue preprocesses, the payload carries the rate as it
    was given and the initial deadline. *)
Theorem buildParams_without_preprocessing now uuid priceRoute minMaxAmount userAddress :
  (∀ key dex, getDexByKey key = Some dex → preProcessTransaction dex = None) →
  buildParams now uuid priceRoute minMaxAmount userAddress =
    Ok (BuildParams.mk priceRoute (JS.bigintToString minMaxAmount) userAddress
          NULL_ADDRESS "0" (integerToString (initialDeadline now)) uuid).
Proof.
  intros Hnone. rewrite buildParams_run.
  rewrite mapAll_unchanged.
  - by destruct priceRoute as [[]].
  - intros routeIndex route d. unfold onRoute, bind.
    rewrite mapAll_unchanged; [by destruct route|].
    intros swapIndex swap d'. unfold onSwap, bind.
    rewrite mapAll_unchanged; [by destruct swap|].
    intros i se d''. unfold onExchange. apply preprocessExchange_passthrough.
    destruct (getDexByKey (SwapExchange.exchange se)) as [dex|] eqn:Hdex;
      [right|by left].
    exists dex. split; [done|]. by eapply Hnone.
Qed.

(** X18.  [buildTransaction] hands a payload to the transaction builder and
    returns what the builder returns when no preprocessing request fails and
    every venue that preprocesses can look tokens up. *)
Theorem buildTransaction_reaches_builder now uuid priceRoute minMaxAmount userAddress :
  preprocessingSucceeds →
  (∀ key dex, getDexByKey key = Some dex →
              is_Some (preProcessTransaction dex) →
              is_Some (getTokenFromAddress dex)) →
  ∃ params,
    buildParams now uuid priceRoute minMaxAmount userAddress = Ok params ∧
    buildTransaction now uuid priceRoute minMaxAmount userAddress = build params.
Proof.
  intros Hsucc Hlookup.
  destruct (buildParams_succeeds now uuid priceRoute minMaxAmount userAddress
              Hsucc Hlookup) as [params Hparams].
  exists params. split; [done|]. unfold buildTransaction. by rewrite Hparams.
Qed.

End MoreAssemblyProperties.

(** ** Properties of the constructor *)

Section ConstructorProperties.
Context {service : DexAdapterService}.

Lemma indexOf_first seen key rest :
  (∀ k, k ∈ seen → k ≠ Some key) →
  indexOf (seen ++ Some key :: rest) key = Some (length seen).
Proof.
  intros Hseen. unfold indexOf.
  assert (list_find (λ e, e = Some key) (seen ++ Some key :: rest) =
          Some (length seen, Some key)) as ->; [|done].
  apply list_find_Some. split; [|split; [done|]].
  - by rewrite lookup_app_r, Nat.sub_diag by lia.
  - intros j y Hj Hlt. rewrite lookup_app_l in Hj by done.
    apply Hseen. by eapply list_elem_of_lookup_2.
Qed.

(** The callback at the index of a key, when the keys before it have been
    visited. *)
Lemma constructor_step_at limitOrderProvider seen key rest provided :
  constructor_step limitOrderProvider
    ((keptKey <$> seen) ++ (Some <$> key :: rest), provided) (length seen) =
  ((keptKey <$> seen ++ [key]) ++ (Some <$> rest),
   provided ++ option_list (providedFor limitOrderProvider key)).
Proof.
  unfold constructor_step.
  rewrite lookup_app_r by (by rewrite length_fmap).
  rewrite length_fmap, Nat.sub_diag; simpl.
  rewrite fmap_app, <-app_assoc; simpl. unfold providedFor.
  destruct (DexAdapterService_getDexByKey key) as [dex|e] eqn:Hkey.
  - assert (keptKey key = Some key) as ->
      by (unfold keptKey, supported; by rewrite Hkey).
    destruct limitOrderProvider as [provider|]; simpl; [|by rewrite app_nil_r].
    destruct (instanceOfLimitOrderExchange dex); simpl; [done|by rewrite app_nil_r].
  - assert (keptKey key = None) as ->
      by (unfold keptKey, supported; by rewrite Hkey).
    rewrite indexOf_first; simpl.
    + rewrite insert_app_r_alt, Nat.sub_diag by done; simpl.
      destruct limitOrderProvider; simpl; by rewrite app_nil_r.
    + intros k (k' & -> & _)%list_elem_of_fmap. unfold keptKey, supported.
      destruct (DexAdapterService_getDexByKey k') eqn:Hk'; [|done].
      intros [= ->]. congruence.
Qed.

Lemma constructor_loop limitOrderProvider seen rest provided :
  fold_left (constructor_step limitOrderProvider)
    (seq (length seen) (length rest))
    ((keptKey <$> seen) ++ (Some <$> rest), provided) =
  (keptKey <$> seen ++ rest,
   provided ++ omap (providedFor limitOrderProvider) rest).
Proof.
  revert seen provided.
  induction rest as [|key rest IH]; intros seen provided.
  - simpl. by rewrite !app_nil_r.
  - cbn [length seq fold_left]. rewrite constructor_step_at.
    replace (S (length seen)) with (length (seen ++ [key]))
      by (rewrite length_app; simpl; lia).
    rewrite IH, <-!app_assoc. simpl.
    by destruct (providedFor limitOrderProvider key).
Qed.

(** X19.  The constructor leaves every key that the adapter service
    supports at its place in [dexKeys] and a hole at the place of every key
    that it does not support, also when a key occurs more than once; the
    length of the array stays.  It hands the limit order provider, when it
    is given one, to the limit order venues among the supported keys. *)
Theorem constructor_blanks_unsupported dexKeys limitOrderProvider :
  let keys := match dexKeys with inl key => [key] | inr keys => keys end in
  (constructor dexKeys limitOrderProvider).1 = keptKey <$> keys ∧
  length (constructor dexKeys limitOrderProvider).1 = length keys ∧
  (constructor dexKeys limitOrderProvider).2 =
    omap (providedFor limitOrderProvider) keys.
Proof.
  intros keys. unfold constructor. fold keys.
  pose proof (constructor_loop limitOrderProvider [] keys []) as Hloop.
  simpl in Hloop. rewrite Hloop; simpl. by rewrite length_fmap.
Qed.

End ConstructorProperties.

(** ** The further properties on the sample data *)

Section MoreScenarios.
Import Sample MoreSamples.
Local Open Scope Z_scope.

Example constructor_of_four_keys :
  constructor (service := service)
    (inr ["UniswapV3"; "Unknown"; "ParaSwapLimitOrders"; "Unknown"])
    (Some "provider") =
    ([Some "UniswapV3"; None; Some "ParaSwapLimitOrders"; None],
     [("ParaSwapLimitOrders", "provider")]).
Proof. reflexivity. Qed.

Example constructor_of_one_key :
  constructor (service := service) (inl "Unknown") None = ([None], []).
Proof. reflexivity. Qed.


Lemma fixRoute_settled_witness :
  settled (curve := config) [hopDaiUsdt; hopUniswap].
Proof.
  apply (fixRoute_settled (curve := config)
           [hopDaiUsdc; hopUsdcUsdt; hopUniswap] [hopDaiUsdt; hopUniswap]).
  reflexivity.
Defined.

Lemma curveV1Merge_without_family_witness :
  curveV1Merge (curve := config) (rateOf V6 [hopUniswap; hopUniswap]) =
    Some (rateOf V6 [hopUniswap; hopUniswap]).
Proof.
  apply (curveV1Merge_without_family (curve := config)).
  repeat constructor.
Defined.

Lemma fixRoute_keeps_other_hops_witness :
  filter (λ s, mergeable (curve := config) s = false) [hopDaiUsdt; hopUniswap] =
  filter (λ s, mergeable (curve := config) s = false)
    [hopDaiUsdc; hopUsdcUsdt; hopUniswap].
Proof.
  apply (fixRoute_keeps_other_hops (curve := config)). reflexivity.
Defined.

Lemma fixRoute_endpoints_witness :
  hopSource <$> head [hopDaiUsdt; hopUniswap] = Some (DAI, 18, Some "1000"%string) ∧
  hopDestination <$> last [hopDaiUsdt; hopUniswap] = Some (WETH, 6, Some "3"%string).
Proof.
  destruct (fixRoute_endpoints (curve := config)
              [hopDaiUsdc; hopUsdcUsdt; hopUniswap] [hopDaiUsdt; hopUniswap])
    as (Hsrc & Hdest & _); [reflexivity|].
  split; [exact Hsrc|exact Hdest].
Defined.

Lemma fixRoute_chained_witness : chained [hopDaiUsdt; hopUniswap].
Proof.
  apply (fixRoute_chained (curve := config)
           [hopDaiUsdc; hopUsdcUsdt; hopUniswap]); [reflexivity|].
  simpl. auto.
Defined.

Lemma fixRoute_run_witness :
  ∃ m me,
    fixRoute (curve := config) [hopDaiUsdc; hopUsdcUsdt; hopUsdtWeth] = Some [m] ∧
    Swap.swapExchanges m = [me] ∧
    Data.path (SwapExchange.data me) =
      [leg DAI USDC; leg (JS.toLowerCase USDC) USDT; leg USDT WETH] ∧
    SwapExchange.poolAddresses me = Some [Some pool1; Some pool2; Some pool3] ∧
    Data.gasUSD (SwapExchange.data me) = "0.350000"%string.
Proof.
  destruct (fixRoute_run (curve := config) hopDaiUsdc seDaiUsdc (leg DAI USDC)
              [Some pool1] [hopUsdcUsdt; hopUsdtWeth])
    as (m & me & Hfix & Hme & Hpath & Hpools & Hgas & _);
    [reflexivity|reflexivity|reflexivity|reflexivity| |].
  - split; [reflexivity|].
    exists seUsdcUsdt, (leg (JS.toLowerCase USDC) USDT).
    split; [reflexivity|]. split; [reflexivity|]. split; [by eexists|].
    split; [reflexivity|]. split; [reflexivity|].
    exists seUsdtWeth, (leg USDT WETH).
    split; [reflexivity|]. split; [reflexivity|]. split; [by eexists|].
    split; [reflexivity|]. exact I.
  - exists m, me. repeat split; first [exact Hfix|exact Hme|exact Hpath|exact Hpools|exact Hgas].
Defined.

Lemma fixRoute_pair_throws_witness :
  fixRoute (curve := config)
    [hopDaiUsdc;
     hop USDC USDT (exchangeOn "CurveV1Factory" "999" "998" [] "0.2" [pool2])] =
    None ∧
  fixRoute (curve := config) [hopDaiUsdc; hopUsdtWeth] =
    Some [hopDaiUsdc; hopUsdtWeth].
Proof.
  split.
  - apply (fixRoute_pair_throws (curve := config) hopDaiUsdc
             (hop USDC USDT (exchangeOn "CurveV1Factory" "999" "998" [] "0.2" [pool2]))
             seDaiUsdc (exchangeOn "CurveV1Factory" "999" "998" [] "0.2" [pool2]));
      [reflexivity..|].
    right. left. reflexivity.
  - apply (fixRoute_pair_throws (curve := config) hopDaiUsdc hopUsdtWeth
             seDaiUsdc seUsdtWeth); reflexivity.
Defined.

Lemma curveV1Merge_per_route_witness :
  curveV1Merge (curve := config) (rateOf V6 [hopDaiUsdc; hopUsdcUsdt]) =
    Some (rateOf V6 [hopDaiUsdt]) ∧
  Rate.bestRoute (rateOf V6 [hopDaiUsdt]) !! 0%nat =
    Rate.bestRoute (rateOf V6 [hopDaiUsdc; hopUsdcUsdt]) !! 0%nat ≫=
      fixRouteOf (curve := config).
Proof.
  split; [reflexivity|].
  destruct (curveV1Merge_per_route (curve := config)
              (rateOf V6 [hopDaiUsdc; hopUsdcUsdt]) eq_refl) as [_ Hroute].
  exact (Hroute (rateOf V6 [hopDaiUsdt]) 0%nat eq_refl).
Defined.

Lemma curveV1Merge_does_not_throw_witness :
  ∃ or',
    curveV1Merge (curve := config) (rateOf V6 [hopDaiUsdc; hopUniswap]) = Some or'.
Proof.
  apply (curveV1Merge_does_not_throw (curve := config)).
  apply Forall_cons; split; [|by apply Forall_nil].
  apply Forall_cons; split; [|apply Forall_cons; split; [|by apply Forall_nil]].
  - intros _ se0 [= <-]. split; [discriminate|by eexists].
  - intros Hm. discriminate Hm.
Defined.

Lemma amounts_spacing_witness : 1005 / 10 ≤ 201 - 100 ≤ 1005 / 10 + 1.
Proof. apply (amounts_spacing 1005 1 100 201); [lia|reflexivity|reflexivity]. Defined.

Lemma getPrices_outcome_witness :
  getPrices (this := sdkSound) {| address := USDT; decimals := 6 |}
    {| address := WETH; decimals := 18 |} 1000 SELL "swapExactAmountIn"
    None None = Throw TypeError ∧
  getPrices (this := sdkPlain) {| address := USDT; decimals := 6 |}
    {| address := WETH; decimals := 18 |} 1000 SELL "swapExactAmountIn"
    None None = Throw (NoLiquidityError ["UniswapV3"]).
Proof.
  split.
  - destruct (getPrices_outcome (this := sdkSound)
                {| address := USDT; decimals := 6 |}
                {| address := WETH; decimals := 18 |} 1000 SELL
                "swapExactAmountIn" None None (Some [shortQuote]) eq_refl)
      as (_ & Hshort & _).
    apply Hshort. exists shortQuote, []. split; [reflexivity|]. simpl. lia.
  - destruct (getPrices_outcome (this := sdkPlain)
                {| address := USDT; decimals := 6 |}
                {| address := WETH; decimals := 18 |} 1000 SELL
                "swapExactAmountIn" None None (Some []) eq_refl)
      as (Hnone & _).
    apply Hnone. by right.
Defined.

Lemma buildParams_any_order_witness :
  ∃ params,
    buildParams (this := sdk) clock "1b9d6bcd"
      (routeOver ["UniswapV3"; "Hashflow"; "SwaapV2"]) 3 user = Ok params ∧
    BuildParams.deadline params =
      integerToString
        (fold_left reconcile
           [ {| txDeadline := Some 0 |}; {| txDeadline := Some 1700000300 |} ]
           (initialDeadline clock)).
Proof.
  destruct (buildParams (this := sdk) clock "1b9d6bcd"
              (routeOver ["UniswapV3"; "Hashflow"; "SwaapV2"]) 3 user)
    as [params|e] eqn:Hbuild; [|discriminate Hbuild].
  exists params. split; [reflexivity|].
  apply (buildParams_any_order (this := sdk) _ _ _ _ _ _ _ Hbuild).
  apply Permutation_swap.
Defined.

Lemma buildParams_positions_witness :
  ∃ params (bestRoute : list Route.t),
    buildParams (this := sdk) clock "1b9d6bcd"
      (routeOver ["UniswapV3"; "Hashflow"]) 3 user = Ok params ∧
    params =
      BuildParams.mk
        (OptimalRate.set_bestRoute bestRoute (routeOver ["UniswapV3"; "Hashflow"]))
        "3" user NULL_ADDRESS "0" (BuildParams.deadline params) "1b9d6bcd" ∧
    length bestRoute = 1%nat.
Proof.
  destruct (buildParams (this := sdk) clock "1b9d6bcd"
              (routeOver ["UniswapV3"; "Hashflow"]) 3 user)
    as [params|e] eqn:Hbuild; [|discriminate Hbuild].
  destruct (buildParams_positions (this := sdk) _ _ _ _ _ _ Hbuild)
    as (bestRoute & Hparams & Hlen & _).
  exists params, bestRoute. split; [reflexivity|]. split; [exact Hparams|exact Hlen].
Defined.

Lemma buildTransaction_all_or_nothing_witness :
  ∃ e,
    buildTransaction (this := sdkWithFailure) clock "1b9d6bcd"
      (routeOver ["UniswapV3"; "Paused"]) 3 user = Throw e.
Proof.
  destruct (buildTransaction_all_or_nothing (this := sdkWithFailure) clock
              "1b9d6bcd" (routeOver ["UniswapV3"; "Paused"]) 3 user)
    as [Hfails _].
  apply (Hfails 0%nat (Route.mk 100 [hopOver ["UniswapV3"; "Paused"]])
           0%nat (hopOver ["UniswapV3"; "Paused"]) 1%nat (seOn "Paused")
           (Error "pool is paused")); reflexivity.
Defined.

Lemma buildParams_without_preprocessing_witness :
  buildParams (this := sdkPlain) clock "1b9d6bcd" (routeOver ["UniswapV3"]) 3 user =
    Ok (BuildParams.mk (routeOver ["UniswapV3"]) "3" user NULL_ADDRESS "0"
          "1700000600" "1b9d6bcd").
Proof.
  apply (buildParams_without_preprocessing (this := sdkPlain)).
  intros key dex. simpl.
  destruct (String.eqb key "UniswapV3"); [|discriminate].
  by intros [= <-].
Defined.

Lemma buildTransaction_reaches_builder_witness :
  ∃ params,
    buildParams (this := sdkSound) clock "1b9d6bcd"
      (routeOver ["UniswapV3"; "Hashflow"]) 3 user = Ok params ∧
    buildTransaction (this := sdkSound) clock "1b9d6bcd"
      (routeOver ["UniswapV3"; "Hashflow"]) 3 user = Ok params.
Proof.
  apply (buildTransaction_reaches_builder (this := sdkSound)).
  - intros key dex preProcess se src dest side options e. simpl.
    unfold registrySound.
    destruct (String.eqb key "Hashflow"); [by intros [= <-] [= <-]|].
    destruct (String.eqb key "UniswapV3"); [by intros [= <-]|discriminate].
  - intros key dex. simpl. unfold registrySound.
    destruct (String.eqb key "Hashflow"); [intros [= <-] _; by eexists|].
    destruct (String.eqb key "UniswapV3"); [|discriminate].
    intros [= <-] [? Hpre]. discriminate Hpre.
Defined.

End MoreScenarios.
